(** * Digest pinning of image references in an operator manifest

    A shallow embedding of [main.py]: the scan of the cluster service version
    file for image references, their de-duplication, the digest lookup in the
    local image store, and the anchored textual rewrite of the manifest.

    Python [str] values are sequences of Unicode code points; a character is
    modelled by its code point and a string by the list of its characters.
    Output written with [print] is not modelled. *)

From Stdlib Require Import String Ascii.
From Stdlib Require Import List ZArith NArith Bool Lia Permutation Sorted.
Import ListNotations.

Set Implicit Arguments.

(** ** Strings *)

Definition char := N.
Definition str := list char.

Definition lit (s : string) : str := map N_of_ascii (list_ascii_of_string s).

Definition dquote : char := 34%N.
Definition newline : char := 10%N.
Definition at_sign : char := 64%N.

Definition char_eq_dec : forall a b : char, {a = b} + {a <> b} := N.eq_dec.
Definition str_eq_dec : forall a b : str, {a = b} + {a <> b} :=
  list_eq_dec char_eq_dec.

(** [str.isspace] on one character: the white space of the Unicode database
    as CPython tabulates it. *)
Definition isspace (c : char) : bool :=
  ((9 <=? c) && (c <=? 13) || (28 <=? c) && (c <=? 32)
   || (c =? 133) || (c =? 160) || (c =? 5760)
   || (8192 <=? c) && (c <=? 8202)
   || (c =? 8232) || (c =? 8233) || (c =? 8239) || (c =? 8287)
   || (c =? 12288))%N.

(** [s.startswith(p)] *)
Fixpoint startswith (p s : str) : bool :=
  match p, s with
  | [], _ => true
  | _ :: _, [] => false
  | a :: p', b :: s' => (a =? b)%N && startswith p' s'
  end.

(** [s.endswith(p)] *)
Definition endswith (p s : str) : bool := startswith (rev p) (rev s).

(** [sub in s] *)
Fixpoint str_in (sub s : str) : bool :=
  startswith sub s ||
  match s with
  | [] => false
  | _ :: s' => str_in sub s'
  end.

(** [s.find(sub)]: the lowest index where [sub] occurs, [-1] when it does
    not. [find_from] carries the index of the head of the remaining text. *)
Fixpoint find_from (i : Z) (sub s : str) : Z :=
  if startswith sub s then i
  else match s with
       | [] => (-1)%Z
       | _ :: s' => find_from (i + 1)%Z sub s'
       end.

Definition str_find (sub s : str) : Z := find_from 0%Z sub s.

(** Slices [s[i:]] and [s[:j]]: a negative bound counts from the end, and
    bounds are clipped to the string. *)
Definition clip_index (s : str) (i : Z) : nat :=
  let n := Z.of_nat (length s) in
  Z.to_nat (Z.min n (Z.max 0 (if (i <? 0)%Z then n + i else i)%Z)).

Definition slice_from (s : str) (i : Z) : str := skipn (clip_index s i) s.
Definition slice_to (s : str) (j : Z) : str := firstn (clip_index s j) s.

(** [s.lstrip()], [s.rstrip()], [s.strip()] *)
Fixpoint lstrip (s : str) : str :=
  match s with
  | [] => []
  | c :: s' => if isspace c then lstrip s' else s
  end.

Definition rstrip (s : str) : str := rev (lstrip (rev s)).
Definition strip (s : str) : str := rstrip (lstrip s).

(** [s.replace(old, new)]: every occurrence of [old], found from the left
    and without overlap, becomes [new]. [skip] counts the characters of the
    occurrence just replaced that are still to be passed over. An empty
    [old] matches before every character and at the end. *)
Fixpoint replace_skip (old new : str) (skip : nat) (s : str) : str :=
  match s with
  | [] => []
  | c :: s' =>
      match skip with
      | S k => replace_skip old new k s'
      | O =>
          if startswith old s
          then new ++ replace_skip old new (Nat.pred (length old)) s'
          else c :: replace_skip old new O s'
      end
  end.

Definition str_replace (old new s : str) : str :=
  match old with
  | [] => flat_map (fun c => new ++ [c]) s ++ new
  | _ :: _ => replace_skip old new O s
  end.

(** [s.split(sep)] for a separator of one character: the pieces between
    the separators, at least one piece. *)
Fixpoint str_split (sep : char) (s : str) : list str :=
  match s with
  | [] => [[]]
  | c :: s' =>
      if (c =? sep)%N then [] :: str_split sep s'
      else match str_split sep s' with
           | [] => [[c]]
           | p :: ps => (c :: p) :: ps
           end
  end.

(** [f.readlines()]: the lines of the text, each with its terminator; a
    last line without terminator is kept when it is not empty. *)
Fixpoint readlines (text : str) : list str :=
  match text with
  | [] => []
  | c :: t =>
      if (c =? newline)%N then [c] :: readlines t
      else match readlines t with
           | [] => [[c]]
           | l :: ls => (c :: l) :: ls
           end
  end.

(** Comparison of strings, [a < b] in Python: lexicographic on code points. *)
Fixpoint str_ltb (a b : str) : bool :=
  match a, b with
  | _, [] => false
  | [], _ :: _ => true
  | x :: a', y :: b' => (x <? y)%N || (x =? y)%N && str_ltb a' b'
  end.

(** [sorted(l)]: a stable sort that only asks [<]. *)
Fixpoint sorted_insert (x : str) (l : list str) : list str :=
  match l with
  | [] => [x]
  | y :: l' => if str_ltb y x then y :: sorted_insert x l' else x :: l
  end.

Fixpoint sorted (l : list str) : list str :=
  match l with
  | [] => []
  | x :: l' => sorted_insert x (sorted l')
  end.

(** [list(set(l))]: the distinct elements of [l]. Python enumerates a set in
    an order of its own; [list_set] is one enumeration, and
    [sorted_enumeration] below shows that the sorted result is the same for
    every other one. *)
Definition list_set (l : list str) : list str := nodup str_eq_dec l.

(** ** Dictionaries

    A [dict] with string keys and values keeps its keys in the order of
    their first insertion; assigning to a key that is present changes the
    value in place. *)

Definition dict := list (str * str).

Fixpoint dict_set (k v : str) (d : dict) : dict :=
  match d with
  | [] => [(k, v)]
  | (k', v') :: d' =>
      if str_eq_dec k k' then (k, v) :: d' else (k', v') :: dict_set k v d'
  end.

Fixpoint dict_get (k : str) (d : dict) : option str :=
  match d with
  | [] => None
  | (k', v') :: d' => if str_eq_dec k k' then Some v' else dict_get k d'
  end.

Definition dict_keys (d : dict) : list str := map fst d.

(** ** The constants of [main.py] *)

Definition CSV_FILE_NAME : str :=
  lit "olm-catalog/serverless-operator/manifests/serverless-operator.clusterserviceversion.yaml".

Definition IMAGE_PREFIXES : list str :=
  [ lit "registry.ci.openshift.org/openshift/knative-";
    lit "registry.ci.openshift.org/knative/openshift-serverless-";
    lit "registry.ci.openshift.org/knative/release-" ].

(** ** The computations on text

    The loop of [collect_images] over the lines it has read, its final
    de-duplication, and the loop of [replace_images] over the items of the
    image map. *)

(** The body of the loop of [collect_images] for one line. *)
Definition scan_line (image_prefix line : str) : list str :=
  let line := strip line in
  if str_in image_prefix line then
    let start_of_prefix := str_find image_prefix line in
    let img := slice_from line start_of_prefix in
    let img := if endswith [dquote] img then slice_to img (-1) else img in
    [img]
  else [].

(** [images] after the loop of [collect_images]. *)
Definition scan_lines (image_prefix : str) (lines : list str) : list str :=
  flat_map (scan_line image_prefix) lines.

(** [sorted(list(set(images)))] *)
Definition dedupe (images : list str) : list str := sorted (list_set images).

(** What [collect_images] returns for a file of content [text]. *)
Definition collect_images_text (text image_prefix : str) : list str :=
  dedupe (scan_lines image_prefix (readlines text)).

(** The two patterns of an entry of the image map, and what replaces them. *)
Definition quoted (s : str) : str := dquote :: s ++ [dquote].
Definition ended (s : str) : str := s ++ [newline].
Definition pinned (img_name img_digest : str) : str :=
  img_name ++ at_sign :: img_digest.

(** The body of the loop of [replace_images] for one item. *)
Definition replace_image (csv_content : str) (item : str * str) : str :=
  let (img_name, img_digest) := item in
  let csv_content :=
    str_replace (quoted img_name) (quoted (pinned img_name img_digest))
                csv_content in
  str_replace (ended img_name) (ended (pinned img_name img_digest))
              csv_content.

(** [csv_content] after the loop of [replace_images]. *)
Definition replace_images_text (csv_content : str) (img_map : dict) : str :=
  fold_left replace_image img_map csv_content.

(** ** Files, the image store and exceptions *)

Inductive exn : Type :=
| FileNotFoundError
| DockerException
| IndexError.

Inductive result (A : Type) : Type :=
| Ok (a : A)
| Raise (e : exn).

Arguments Ok {A} a.
Arguments Raise {A} e.

(** [os.path.join(a, b)] for a relative [b]. *)
Definition path_join (a b : str) : str :=
  match a with
  | [] => b
  | _ :: _ => if endswith (lit "/") a then a ++ b else a ++ lit "/" ++ b
  end.

(** The files by their paths; the content of a file is the text that a read
    in text mode gives. *)
Definition files := str -> option str.

Definition write_file (path content : str) (fs : files) : files :=
  fun p => if str_eq_dec p path then Some content else fs p.

(** The Docker client, as far as [main.py] uses it. [Store] is the state of
    the daemon. A pull adds to the store or raises; [images_get] gives the
    ["RepoDigests"] attribute of an image of the store, or raises when the
    image is missing; a build reads the tree below a directory. *)
Record DockerClient (Store : Type) : Type := {
  api_pull : str -> Store -> option Store;
  images_get : str -> Store -> option (list str);
  api_build : files -> str -> str -> Store -> option Store
}.

Record World (Store : Type) : Type := {
  fs : files;
  store : Store
}.

Section Pipeline.

Variable Store : Type.

(** A command runs in a world and ends normally or by an exception; the
    world it leaves is kept in both cases. *)
Definition M (A : Type) : Type := World Store -> result A * World Store.

Definition ret {A} (a : A) : M A := fun w => (Ok a, w).
Definition raise {A} (e : exn) : M A := fun w => (Raise e, w).
Definition bind {A B} (m : M A) (k : A -> M B) : M B :=
  fun w => match m w with
           | (Ok a, w') => k a w'
           | (Raise e, w') => (Raise e, w')
           end.

Local Notation "x <- m ;; k" := (bind m (fun x => k))
  (at level 61, m at next level, right associativity).
Local Notation "m ;;; k" := (bind m (fun _ => k))
  (at level 61, right associativity).

(** [open(path, "r")] followed by a read of the whole file. *)
Definition read_file (path : str) : M str :=
  fun w => match fs w path with
           | Some content => (Ok content, w)
           | None => (Raise FileNotFoundError, w)
           end.

(** [open(path, "w")] followed by a write. *)
Definition write (path content : str) : M unit :=
  fun w => (Ok tt, {| fs := write_file path content (fs w); store := store w |}).

Definition collect_images (repo_root image_prefix : str) : M (list str) :=
  let csv_file := path_join repo_root CSV_FILE_NAME in
  text <- read_file csv_file ;;
  let lines := readlines text in
  let images := scan_lines image_prefix lines in
  ret (sorted (list_set images)).

Fixpoint pull_images (images : list str) (docker_client : DockerClient Store)
  : M unit :=
  match images with
  | [] => ret tt
  | img :: rest =>
      (fun w => match api_pull docker_client img (store w) with
                | Some st => (Ok tt, {| fs := fs w; store := st |})
                | None => (Raise DockerException, w)
                end) ;;;
      pull_images rest docker_client
  end.

(** The body of the loop of [create_image_map]: the digest of one image. *)
Definition image_digest (img_name : str) (docker_client : DockerClient Store)
  : M str :=
  fun w => match images_get docker_client img_name (store w) with
           | None => (Raise DockerException, w)
           | Some all_digests =>
               match all_digests with
               | [] => (Raise IndexError, w)
               | latest_digest :: _ =>
                   match str_split at_sign latest_digest with
                   | _ :: digest_without_image_name :: _ =>
                       (Ok digest_without_image_name, w)
                   | _ => (Raise IndexError, w)
                   end
               end
           end.

Fixpoint image_map_loop (images : list str) (docker_client : DockerClient Store)
  (img_map : dict) : M dict :=
  match images with
  | [] => ret img_map
  | img_name :: rest =>
      digest_without_image_name <- image_digest img_name docker_client ;;
      image_map_loop rest docker_client
                     (dict_set img_name digest_without_image_name img_map)
  end.

Definition create_image_map (images : list str)
  (docker_client : DockerClient Store) : M dict :=
  image_map_loop images docker_client [].

Definition replace_images (repo_root : str) (img_map : dict) : M unit :=
  let csv_file := path_join repo_root CSV_FILE_NAME in
  csv_content <- read_file csv_file ;;
  write csv_file (replace_images_text csv_content img_map).

Definition build_index_image (repo_root : str)
  (docker_client : DockerClient Store) (target_img_name : str) : M unit :=
  let image_root_dir :=
    path_join (path_join repo_root (lit "olm-catalog"))
              (lit "serverless-operator") in
  fun w => match api_build docker_client (fs w) image_root_dir
                           target_img_name (store w) with
           | Some st => (Ok tt, {| fs := fs w; store := st |})
           | None => (Raise DockerException, w)
           end.

(** The images of all prefixes, in the order of [IMAGE_PREFIXES]. *)
Fixpoint collect_all (repo_root : str) (prefixes : list str) : M (list str) :=
  match prefixes with
  | [] => ret []
  | prefix :: rest =>
      found <- collect_images repo_root prefix ;;
      more <- collect_all repo_root rest ;;
      ret (found ++ more)
  end.

(** [execute], with the client that [docker.from_env()] gives. *)
Definition execute (docker_client : DockerClient Store)
  (repo_root target_img_name : str) : M unit :=
  images <- collect_all repo_root IMAGE_PREFIXES ;;
  pull_images images docker_client ;;;
  img_map <- create_image_map images docker_client ;;
  replace_images repo_root img_map ;;;
  build_index_image repo_root docker_client target_img_name.

End Pipeline.

(** ** Notions used in the statements *)

Definition str_eqb (a b : str) : bool := if str_eq_dec a b then true else false.

(** A delimiter is one of the two characters that end a pattern of
    [replace_image]; a plain string holds no delimiter. *)
Definition is_delim (c : char) : bool := (c =? dquote)%N || (c =? newline)%N.
Definition plain (w : str) : Prop := forallb (fun c => negb (is_delim c)) w = true.
Definition at_free (w : str) : Prop := existsb (N.eqb at_sign) w = false.

(** [s] is [old] replaced everywhere by [new] in [t]: [t] is cut into gaps
    that each end at the first occurrence of [old] after the preceding one,
    and a rest in which [old] does not occur; the gaps and the rest are
    kept and each [old] between them is [new]. *)
Definition all_replaced (old new t s : str) : Prop :=
  exists (gaps : list str) (rest : str),
    t = flat_map (fun g => g ++ old) gaps ++ rest /\
    s = flat_map (fun g => g ++ new) gaps ++ rest /\
    Forall (fun g => str_find old (g ++ old) = Z.of_nat (length g)) gaps /\
    str_in old rest = false.

(** One item of the image map applied to a text, then all of them in the
    order of the map. *)
Definition item_applied (item : str * str) (t s : str) : Prop :=
  exists t1,
    all_replaced (quoted (fst item)) (quoted (pinned (fst item) (snd item))) t t1 /\
    all_replaced (ended (fst item)) (ended (pinned (fst item) (snd item))) t1 s.

Inductive items_applied : dict -> str -> str -> Prop :=
| items_done t : items_applied [] t t
| items_next item img_map t t1 s :
    item_applied item t t1 -> items_applied img_map t1 s ->
    items_applied (item :: img_map) t s.

(** A text seen as words that each end at a delimiter, and a last word. *)
Definition token := (str * char)%type.

Definition untok (toks : list token) (fin : str) : str :=
  flat_map (fun t : token => fst t ++ [snd t]) toks ++ fin.

Fixpoint tokenize (s : str) : list token * str :=
  match s with
  | [] => ([], [])
  | c :: s' =>
      let (toks, fin) := tokenize s' in
      if is_delim c then (([], c) :: toks, fin)
      else match toks with
           | [] => ([], c :: fin)
           | (w, d) :: toks' => ((c :: w, d) :: toks', fin)
           end
  end.

Definition wf_token (t : token) : Prop := plain (fst t) /\ is_delim (snd t) = true.

(** The replacement of the quoted pattern of [r], on words: a word [r]
    between two quotes receives [ins]; [opened] tells that the word starts
    after a quote that no replaced occurrence has used up. *)
Fixpoint tokQ (r ins : str) (opened : bool) (toks : list token) : list token :=
  match toks with
  | [] => []
  | (w, d) :: rest =>
      if opened && str_eqb w r && (d =? dquote)%N
      then (w ++ ins, d) :: tokQ r ins false rest
      else (w, d) :: tokQ r ins (d =? dquote)%N rest
  end.

(** The state of [tokQ] after the words [toks]. *)
Fixpoint stateQ (r : str) (opened : bool) (toks : list token) : bool :=
  match toks with
  | [] => opened
  | (w, d) :: rest =>
      if opened && str_eqb w r && (d =? dquote)%N
      then stateQ r false rest
      else stateQ r (d =? dquote)%N rest
  end.

(** The replacement of the pattern of [r] before a line end, on words. *)
Definition tokN_one (r ins : str) (t : token) : token :=
  if (snd t =? newline)%N && endswith r (fst t) then (fst t ++ ins, snd t) else t.

Definition tokN (r ins : str) (toks : list token) : list token :=
  map (tokN_one r ins) toks.

Definition tokstep (toks : list token) (item : str * str) : list token :=
  tokN (fst item) (at_sign :: snd item)
       (tokQ (fst item) (at_sign :: snd item) false toks).

(** A word [r] between two quotes occurs in the words. *)
Fixpoint candQ (r : str) (opened : bool) (toks : list token) : bool :=
  match toks with
  | [] => false
  | (w, d) :: rest =>
      opened && str_eqb w r && (d =? dquote)%N || candQ r (d =? dquote)%N rest
  end.

(** A word that ends with [r] stands before a line end. *)
Definition candN (r : str) (toks : list token) : bool :=
  existsb (fun t : token => (snd t =? newline)%N && endswith r (fst t)) toks.

(** Two words [r] that share a quote: [dquote r dquote r dquote]. *)
Fixpoint ovlQ (r : str) (opened : bool) (toks : list token) : bool :=
  match toks with
  | [] => false
  | (w, d) :: rest =>
      opened && str_eqb w r && (d =? dquote)%N &&
        match rest with
        | (w2, d2) :: _ => str_eqb w2 r && (d2 =? dquote)%N
        | [] => false
        end
      || ovlQ r (d =? dquote)%N rest
  end.

(** A word [r] between quotes, or before a line end, is absent. *)
Definition no_cand (r : str) (toks : list token) : Prop :=
  candQ r false toks = false /\ candN r toks = false.

(** Two words [r] around one quote in the words are the text
    [dquote r dquote r dquote]. *)
Definition shared_quote (r : str) : str :=
  dquote :: r ++ dquote :: r ++ [dquote].

(** [a < b] as a proposition. *)
Definition str_lt (a b : str) : Prop := str_ltb a b = true.

(** The references that [execute] works with for a manifest [text]: the
    images of every prefix, in the order of [IMAGE_PREFIXES]. *)
Definition working_set (text : str) : list str :=
  flat_map (collect_images_text text) IMAGE_PREFIXES.

Definition has_configured_prefix (r : str) : Prop :=
  existsb (fun p => startswith p r) IMAGE_PREFIXES = true.

(** A digest [sha256:] followed by hexadecimal digits. *)
Definition is_hex (c : char) : bool :=
  ((48 <=? c) && (c <=? 57) || (97 <=? c) && (c <=? 102)
   || (65 <=? c) && (c <=? 70))%N.

Definition is_sha256_digest (d : str) : Prop :=
  startswith (lit "sha256:") d && forallb is_hex (skipn 7 d) = true.

(** What an item does around an anchored occurrence of a reference [r]:
    it keeps a quoted occurrence, or one before a line end, of another
    reference, and it pins such an occurrence of its own reference. *)
Definition keeps_quoted (item : str * str) (r : str) : Prop :=
  forall X Y,
    replace_image (X ++ quoted r ++ Y) item
    = replace_image (X ++ [dquote]) item ++ r ++ replace_image (dquote :: Y) item.

Definition keeps_ended (item : str * str) (r : str) : Prop :=
  forall X Y,
    replace_image (X ++ ended r ++ Y) item
    = replace_image X item ++ ended r ++ replace_image Y item.

Definition pins_ended (item : str * str) : Prop :=
  forall X Y,
    replace_image (X ++ ended (fst item) ++ Y) item
    = replace_image X item ++ ended (pinned (fst item) (snd item))
      ++ replace_image Y item.

Definition pins_quoted (item : str * str) : Prop :=
  forall X Y,
    endswith (dquote :: fst item) X = false ->
    replace_image (X ++ quoted (fst item) ++ Y) item
    = replace_image X item ++ quoted (pinned (fst item) (snd item))
      ++ replace_image Y item.

(** The resolution of all references in [execute]: the pulls, then the
    image map. *)
Definition resolve_all (Store : Type) (images : list str)
  (docker_client : DockerClient Store) : M Store dict :=
  bind (pull_images images docker_client)
       (fun _ => create_image_map images docker_client).

Definition keeps_anchored (item : str * str) (r : str) : Prop :=
  keeps_quoted item r /\ keeps_ended item r.

Definition pins_anchored (item : str * str) : Prop :=
  pins_quoted item /\ pins_ended item.

(** ** Examples *)

(** The two image names of the comment in [replace_images]. *)
Definition ex_mapping : str :=
  lit "registry.ci.openshift.org/openshift/knative-v1.3.0:knative-serving-domain-mapping".
Definition ex_webhook : str := ex_mapping ++ lit "-webhook".

Definition ex_digest_a : str := lit "sha256:aaaa".
Definition ex_digest_b : str := lit "sha256:bbbb".

(** A manifest with both names, one quoted and one before a line end. *)
Definition ex_manifest : str :=
  lit "    value: " ++ quoted ex_webhook ++ [newline]
  ++ lit "    image: " ++ ended ex_mapping.

(** A reference, and a longer one that starts and ends with it. *)
Definition ex_release : str := lit "registry.ci.openshift.org/knative/release-v1".
Definition ex_release_twice : str := ex_release ++ lit ":" ++ ex_release.

Definition ex_manifest_twice : str :=
  lit "    value: " ++ quoted ex_release ++ [newline]
  ++ lit "    image: " ++ ended ex_release_twice.

(** A store that lists the images pulled so far, and a client that cannot
    pull [ex_webhook] and records one digest for every image it has. *)
Definition ex_client : DockerClient (list str) :=
  {| api_pull := fun img st =>
       if str_eqb img ex_webhook then None else Some (img :: st);
     images_get := fun img st =>
       if existsb (str_eqb img) st
       then Some [pinned img ex_digest_a; pinned img ex_digest_b]
       else None;
     api_build := fun _ _ _ st => Some st |}.

Definition ex_repo : str := lit "/tmp/serverless-operator-x".

Definition ex_world : World (list str) :=
  {| fs := fun p =>
       if str_eqb p (path_join ex_repo CSV_FILE_NAME) then Some ex_manifest
       else None;
     store := [] |}.

(** ** Proof support *)

Arguments str_replace : simpl never.

(** Normal form of the texts built from words. *)
Ltac untok_norm :=
  unfold untok;
  repeat first
    [ rewrite flat_map_app | rewrite <- app_assoc | rewrite app_nil_r
    | progress (cbn [app flat_map fst snd]) ].


(** ** The caller of [execute]

    [main] with the host it runs on: the temporary directories, git and the
    clock. The [finally] block of [main] removes nothing, its condition
    being [1 == 0]. *)

Definition REPOSITORY : str :=
  lit "https://github.com/openshift-knative/serverless-operator.git".

(** [mkdtemp prefix] makes a directory and gives its path, or raises;
    [clone_from url to_path branch] tells whether the clone succeeded and
    leaves the files it wrote; [rev_parse_short dir] is
    [repo.git.rev_parse(repo.head, short=True)] for the clone in [dir], or
    raises; [strftime_now] is the time of the call, formatted with
    [%Y%m%d-%H%M%S]. *)
Record Host : Type := {
  mkdtemp : str -> files -> option (str * files);
  clone_from : str -> str -> str -> files -> bool * files;
  rev_parse_short : str -> files -> option str;
  strftime_now : str
}.

(** How [main] ends: it returns, [sys.exit] ends it with a status, or an
    exception of the host or of [execute] is left uncaught. *)
Inductive ending : Type :=
| Returned
| SystemExit (status : Z)
| OSError
| GitCommandError
| Uncaught (e : exn).

Section Main.

Variable Store : Type.

(** [clone]: whether git made the clone, and the files it left. *)
Definition clone (host : Host) (branch temp_dir : str) (w : World Store)
  : bool * World Store :=
  let (ok, cloned) := clone_from host REPOSITORY temp_dir branch (fs w) in
  (ok, {| fs := cloned; store := store w |}).

(** [print_help] formats [sys.argv[0]] into the lines it prints: without
    a first argument it raises [IndexError]. *)
Definition print_help (argv : list str) : option unit :=
  match argv with
  | [] => None
  | _ :: _ => Some tt
  end.

(** [print_help()] followed by [sys.exit(1)]. *)
Definition refuse (argv : list str) (w : World Store) : ending * World Store :=
  match print_help argv with
  | None => (Uncaught IndexError, w)
  | Some _ => (SystemExit 1, w)
  end.

Definition main (host : Host) (docker_client : DockerClient Store)
  (argv : list str) (w : World Store) : ending * World Store :=
  match argv with
  | [_; branch; target_img_name_base] =>
      if str_in (lit ":") target_img_name_base then refuse argv w
      else
        match mkdtemp host (lit "serverless-operator-") (fs w) with
        | None => (OSError, w)
        | Some (temp_dir, made) =>
            match clone host branch temp_dir {| fs := made; store := store w |} with
            | (false, w2) => (GitCommandError, w2)
            | (true, w2) =>
                match rev_parse_short host temp_dir (fs w2) with
                | None => (GitCommandError, w2)
                | Some rev =>
                    let tag := branch ++ lit "-" ++ rev ++ lit "-"
                               ++ strftime_now host in
                    let target_img_name :=
                      target_img_name_base ++ lit ":" ++ tag in
                    match execute docker_client temp_dir target_img_name w2 with
                    | (Ok _, w3) => (Returned, w3)
                    | (Raise e, w3) => (Uncaught e, w3)
                    end
                end
            end
        end
  | _ => refuse argv w
  end.

End Main.

(** ** Further notions used in the statements *)

(** [a] is [b] with some characters left out. *)
Inductive subseq : str -> str -> Prop :=
| subseq_nil : subseq [] []
| subseq_skip a b c : subseq a b -> subseq a (c :: b)
| subseq_take a b c : subseq a b -> subseq (c :: a) (c :: b).

(** Among entries given with the time at which the store recorded them,
    the one recorded last. *)
Fixpoint latest_recorded (records : list (nat * str)) : option (nat * str) :=
  match records with
  | [] => None
  | r :: rest =>
      match latest_recorded rest with
      | None => Some r
      | Some r' => if fst r' <? fst r then Some r else Some r'
      end
  end.

(** The pulls of [pull_images], on the store alone. *)
Fixpoint pulled (Store : Type) (docker_client : DockerClient Store)
  (images : list str) (st : Store) : option Store :=
  match images with
  | [] => Some st
  | img :: rest =>
      match api_pull docker_client img st with
      | Some st' => pulled docker_client rest st'
      | None => None
      end
  end.

(** ** Further examples *)

(** A manifest with one image, and a world that holds it. *)
Definition ex_manifest_single : str :=
  lit "    image: " ++ ended ex_mapping.

Definition ex_world_single : World (list str) :=
  {| fs := fun p =>
       if str_eqb p (path_join ex_repo CSV_FILE_NAME)
       then Some ex_manifest_single else None;
     store := [] |}.

(** The client [ex_client] with a build that fails. *)
Definition ex_client_no_build : DockerClient (list str) :=
  {| api_pull := api_pull ex_client;
     images_get := images_get ex_client;
     api_build := fun _ _ _ _ => None |}.

(** A host whose clone writes [ex_manifest_single] below the directory. *)
Definition ex_host : Host :=
  {| mkdtemp := fun prefix files => Some (lit "/tmp/" ++ prefix ++ lit "k3", files);
     clone_from := fun url to_path branch files =>
       (true, write_file (path_join to_path CSV_FILE_NAME) ex_manifest_single files);
     rev_parse_short := fun dir files => Some (lit "4f2a91c");
     strftime_now := lit "20230417-101502" |}.

Unset Implicit Arguments.

(** * Properties of the string operations *)

Lemma startswith_true p s : startswith p s = true <-> exists t, s = p ++ t.
Proof.
  revert s; induction p as [|a p IH]; intros s; simpl.
  - split; [intros _; exists s; reflexivity | reflexivity].
  - destruct s as [|b s].
    + split; [discriminate | intros [t H]; discriminate].
    + rewrite andb_true_iff, N.eqb_eq, IH. split.
      * intros [-> [t ->]]. exists t. reflexivity.
      * intros [t H]. inversion H; subst. split; eauto.
Qed.

Lemma startswith_app p t : startswith p (p ++ t) = true.
Proof. apply startswith_true. eauto. Qed.

Lemma startswith_refl p : startswith p p = true.
Proof. apply startswith_true. exists []. now rewrite app_nil_r. Qed.

Lemma startswith_extend p s t : startswith p s = true -> startswith p (s ++ t) = true.
Proof.
  rewrite !startswith_true. intros [u ->]. exists (u ++ t). now rewrite app_assoc.
Qed.

Lemma startswith_length p s : startswith p s = true -> length p <= length s.
Proof.
  intros H. apply startswith_true in H as [t ->]. rewrite length_app. lia.
Qed.

Lemma startswith_nil_r p : startswith p [] = true -> p = [].
Proof. destruct p; [reflexivity | discriminate]. Qed.

Lemma endswith_true p s : endswith p s = true <-> exists t, s = t ++ p.
Proof.
  unfold endswith. rewrite startswith_true. split.
  - intros [t H]. exists (rev t).
    rewrite <- (rev_involutive s), H, rev_app_distr, rev_involutive. reflexivity.
  - intros [t ->]. exists (rev t). apply rev_app_distr.
Qed.

Lemma endswith_app t p : endswith p (t ++ p) = true.
Proof. apply endswith_true. eauto. Qed.

Lemma endswith_length p s : endswith p s = true -> length p <= length s.
Proof.
  intros H. apply endswith_true in H as [t ->]. rewrite length_app. lia.
Qed.

Lemma str_eqb_eq a b : str_eqb a b = true <-> a = b.
Proof. unfold str_eqb. destruct (str_eq_dec a b); split; congruence. Qed.

Lemma str_eqb_refl a : str_eqb a a = true.
Proof. now apply str_eqb_eq. Qed.

Lemma str_eqb_neq a b : a <> b -> str_eqb a b = false.
Proof. unfold str_eqb. destruct (str_eq_dec a b); congruence. Qed.

(** *** [str_in] and [str_find] *)

Lemma str_in_true sub s : str_in sub s = true <-> exists a b, s = a ++ sub ++ b.
Proof.
  induction s as [|c s IH]; simpl.
  - rewrite orb_false_r, startswith_true. split.
    + intros [t H]. exists [], t. exact H.
    + intros [a [b H]]. destruct a; [eauto | discriminate].
  - rewrite orb_true_iff, IH, startswith_true. split.
    + intros [[t H] | [a [b H]]].
      * exists [], t. exact H.
      * exists (c :: a), b. now rewrite H.
    + intros [a [b H]]. destruct a as [|x a].
      * left. eauto.
      * right. inversion H. eauto.
Qed.

Lemma str_in_app_intro sub a b : str_in sub (a ++ sub ++ b) = true.
Proof. apply str_in_true. eauto. Qed.

Lemma find_from_shift sub s i :
  (find_from i sub s = (-1)%Z /\ find_from 0 sub s = (-1)%Z) \/
  ((0 <= find_from 0 sub s)%Z /\ find_from i sub s = (i + find_from 0 sub s)%Z).
Proof.
  revert i; induction s as [|c s IH]; intros i; simpl.
  - destruct (startswith sub []); [right | left]; split; lia.
  - destruct (startswith sub (c :: s)).
    + right. split; lia.
    + destruct (IH (i + 1)%Z) as [[H1 H2] | [H1 H2]], (IH 1%Z) as [[H3 H4] | [H3 H4]];
        lia.
Qed.

Lemma str_find_hit sub t : str_find sub (sub ++ t) = 0%Z.
Proof.
  unfold str_find. destruct (sub ++ t) eqn:E; cbn [find_from];
    rewrite <- E, startswith_app; reflexivity.
Qed.

Lemma str_find_cons_miss sub c s :
  startswith sub (c :: s) = false ->
  (0 <= str_find sub s)%Z -> str_find sub (c :: s) = (1 + str_find sub s)%Z.
Proof.
  unfold str_find. intros H Hs. cbn [find_from]. rewrite H.
  change (0 + 1)%Z with 1%Z.
  destruct (find_from_shift sub s 1) as [[H1 H2] | [H1 H2]]; lia.
Qed.

Lemma str_find_in sub s : str_in sub s = true <-> (0 <= str_find sub s)%Z.
Proof.
  unfold str_find. induction s as [|c s IH]; cbn [find_from str_in].
  - destruct (startswith sub []); simpl; split; intros; (lia || congruence).
  - destruct (startswith sub (c :: s)); cbn [orb].
    + split; intros; (lia || congruence).
    + rewrite IH. change (0 + 1)%Z with 1%Z.
      destruct (find_from_shift sub s 1) as [[H1 H2] | [H1 H2]]; lia.
Qed.

Lemma str_find_bounds sub s : (-1 <= str_find sub s <= Z.of_nat (length s))%Z.
Proof.
  unfold str_find. induction s as [|c s IH]; cbn [find_from length].
  - destruct (startswith sub []); lia.
  - destruct (startswith sub (c :: s)); [lia|]. change (0 + 1)%Z with 1%Z.
    destruct (find_from_shift sub s 1) as [[H1 H2] | [H1 H2]]; lia.
Qed.

(** The text from the index that [str_find] gives starts with [sub], and
    no earlier position does. *)
Lemma str_find_spec sub s :
  str_in sub s = true ->
  exists a b, s = a ++ sub ++ b /\ str_find sub s = Z.of_nat (length a) /\
              forall k, k < length a -> startswith sub (skipn k s) = false.
Proof.
  induction s as [|c s IH]; intros H.
  - simpl in H. rewrite orb_false_r in H. exists [], [].
    apply startswith_nil_r in H. subst. repeat split. intros k Hk. inversion Hk.
  - destruct (startswith sub (c :: s)) eqn:E.
    + apply startswith_true in E as [t E]. exists [], t. repeat split.
      * exact E.
      * unfold str_find. simpl find_from.
        replace (startswith sub (c :: s)) with true; [reflexivity|].
        symmetry. apply startswith_true. eauto.
      * intros k Hk. inversion Hk.
    + simpl in H. rewrite E in H. simpl in H.
      destruct (IH H) as [a [b [Hs [Hf Hk]]]].
      exists (c :: a), b. repeat split.
      * simpl. now rewrite Hs.
      * rewrite str_find_cons_miss; [| exact E | lia].
        rewrite Hf. simpl length. lia.
      * intros [|k] Hlt; [exact E|]. simpl. apply Hk. simpl in Hlt. lia.
Qed.

(** *** [str_replace] *)

Lemma replace_skip_skipn old new s k :
  replace_skip old new k s = replace_skip old new 0 (skipn k s).
Proof.
  revert k; induction s as [|c s IH]; intros [|k]; try reflexivity.
  simpl skipn. rewrite <- IH. reflexivity.
Qed.

Lemma str_replace_nil old new : old <> [] -> str_replace old new [] = [].
Proof. destruct old; [congruence | reflexivity]. Qed.

Lemma str_replace_hit old new s :
  old <> [] -> str_replace old new (old ++ s) = new ++ str_replace old new s.
Proof.
  destruct old as [|a o]; [congruence | intros _].
  unfold str_replace. change ((a :: o) ++ s) with (a :: (o ++ s)).
  cbn [replace_skip].
  change (a :: o ++ s) with ((a :: o) ++ s). rewrite startswith_app.
  rewrite replace_skip_skipn. simpl length. simpl Nat.pred.
  rewrite skipn_app, skipn_all, Nat.sub_diag. reflexivity.
Qed.

Lemma str_replace_miss old new c s :
  old <> [] -> startswith old (c :: s) = false ->
  str_replace old new (c :: s) = c :: str_replace old new s.
Proof.
  destruct old as [|a o]; [congruence | intros _ H].
  unfold str_replace. cbn [replace_skip]. rewrite H. reflexivity.
Qed.

Lemma str_replace_absent old new s :
  old <> [] -> str_in old s = false -> str_replace old new s = s.
Proof.
  intros Ho. induction s as [|c s IH]; intros H.
  - now apply str_replace_nil.
  - simpl in H. apply orb_false_iff in H as [H1 H2].
    rewrite str_replace_miss by assumption. now rewrite IH.
Qed.

Lemma str_replace_all_replaced old new t :
  old <> [] -> all_replaced old new t (str_replace old new t).
Proof.
  intros Ho. remember (length t) as n eqn:Hn. revert t Hn.
  induction n as [n IH] using lt_wf_ind. intros t Hn.
  destruct t as [|c t].
  - exists [], []. rewrite str_replace_nil by assumption. repeat split.
    + constructor.
    + simpl. rewrite orb_false_r. destruct old; [congruence | reflexivity].
  - destruct (startswith old (c :: t)) eqn:E.
    + apply startswith_true in E as [u E]. rewrite E.
      rewrite str_replace_hit by assumption.
      destruct (IH (length u)) with (t := u) as [gaps [rest [H1 [H2 [H3 H4]]]]].
      * subst n. rewrite E, length_app. destruct old; [congruence | simpl; lia].
      * reflexivity.
      * exists ([] :: gaps), rest. repeat split.
        -- simpl. rewrite <- app_assoc. now rewrite <- H1.
        -- simpl. rewrite <- app_assoc. now rewrite <- H2.
        -- constructor; [| exact H3]. cbn [app length].
           pose proof (str_find_hit old []) as Hf.
           now rewrite app_nil_r in Hf.
        -- exact H4.
    + rewrite str_replace_miss by assumption.
      destruct (IH (length t)) with (t := t) as [gaps [rest [H1 [H2 [H3 H4]]]]].
      * subst n. simpl. lia.
      * reflexivity.
      * destruct gaps as [|g gaps].
        -- exists [], (c :: rest). simpl in H1, H2. repeat split.
           ++ simpl. now rewrite <- H1.
           ++ simpl. now rewrite <- H2.
           ++ constructor.
           ++ simpl. rewrite <- H1, E. simpl. now rewrite H1.
        -- exists ((c :: g) :: gaps), rest. repeat split.
           ++ simpl. simpl in H1. now rewrite <- H1.
           ++ simpl. simpl in H2. now rewrite <- H2.
           ++ inversion_clear H3 as [| ? ? Hg Hgs]. constructor; [| exact Hgs].
              change ((c :: g) ++ old) with (c :: (g ++ old)).
              rewrite str_find_cons_miss.
              ** rewrite Hg. simpl length. lia.
              ** destruct (startswith old (c :: g ++ old)) eqn:E2; [| reflexivity].
                 apply startswith_extend
                   with (t := flat_map (fun g => g ++ old) gaps ++ rest) in E2.
                 simpl in H1. rewrite H1 in E.
                 rewrite <- app_assoc in E. simpl in E2. rewrite <- app_assoc in E2.
                 simpl in E. rewrite <- app_assoc in E. congruence.
              ** rewrite Hg. lia.
           ++ exact H4.
Qed.

(** * Words and delimiters *)

Lemma plain_nil : plain [].
Proof. reflexivity. Qed.

Lemma plain_cons c w : plain (c :: w) <-> is_delim c = false /\ plain w.
Proof.
  unfold plain. simpl. rewrite andb_true_iff, negb_true_iff. reflexivity.
Qed.

Lemma plain_app a b : plain (a ++ b) <-> plain a /\ plain b.
Proof. unfold plain. rewrite forallb_app, andb_true_iff. reflexivity. Qed.

Lemma plain_In w c : plain w -> In c w -> is_delim c = false.
Proof.
  unfold plain. rewrite forallb_forall. intros H Hc.
  apply H in Hc. now apply negb_true_iff.
Qed.

Lemma plain_at_sign d : plain d -> plain (at_sign :: d).
Proof. intros H. apply plain_cons. split; [reflexivity | exact H]. Qed.

Lemma delim_cases d : is_delim d = true -> d = dquote \/ d = newline.
Proof.
  unfold is_delim. rewrite orb_true_iff, !N.eqb_eq. tauto.
Qed.

Lemma str_eqb_sym a b : str_eqb a b = str_eqb b a.
Proof. unfold str_eqb. destruct (str_eq_dec a b), (str_eq_dec b a); congruence. Qed.

Lemma str_eqb_cons a u c w :
  str_eqb (a :: u) (c :: w) = (a =? c)%N && str_eqb u w.
Proof.
  apply eq_true_iff_eq.
  rewrite andb_true_iff, N.eqb_eq, !str_eqb_eq. split.
  - intros H. inversion H. auto.
  - intros [-> ->]. reflexivity.
Qed.

(** A word and its delimiter at the head of a text are matched by a plain
    pattern that ends with a delimiter exactly when both agree. *)
Lemma token_prefix u d1 w d2 s :
  plain u -> plain w -> is_delim d1 = true -> is_delim d2 = true ->
  startswith (u ++ [d1]) (w ++ d2 :: s) = str_eqb u w && (d1 =? d2)%N.
Proof.
  intros Hu Hw H1 H2. revert w Hw.
  induction u as [|a u IH]; intros [|c w] Hw.
  - simpl. now rewrite andb_true_r.
  - apply plain_cons in Hw as [Hc _]. simpl.
    destruct (N.eqb_spec d1 c) as [->|]; [congruence | reflexivity].
  - apply plain_cons in Hu as [Ha _]. simpl.
    destruct (N.eqb_spec a d2) as [->|]; [congruence | reflexivity].
  - apply plain_cons in Hu as [_ Hu]. apply plain_cons in Hw as [_ Hw].
    simpl. rewrite (IH Hu w Hw), str_eqb_cons, andb_assoc. reflexivity.
Qed.

Lemma plain_not_in u d v s :
  plain s -> is_delim d = true -> str_in (u ++ d :: v) s = false.
Proof.
  intros Hs Hd. destruct (str_in (u ++ d :: v) s) eqn:E; [| reflexivity].
  apply str_in_true in E as [a [b E]].
  assert (In d s) as Hin.
  { rewrite E. apply in_or_app. right. apply in_or_app. left.
    apply in_or_app. right. now left. }
  apply (plain_In _ _ Hs) in Hin. congruence.
Qed.

Lemma plain_not_startswith u d s :
  plain s -> is_delim d = true -> startswith (u ++ [d]) s = false.
Proof.
  intros Hs Hd. pose proof (plain_not_in u d [] s Hs Hd) as H.
  destruct s; simpl in H; now apply orb_false_iff in H as [H _].
Qed.

Lemma endswith_cons r c w :
  endswith r (c :: w) = str_eqb r (c :: w) || endswith r w.
Proof.
  apply eq_true_iff_eq.
  rewrite orb_true_iff, str_eqb_eq, !endswith_true. split.
  - intros [[|x t] H].
    + left. now rewrite H.
    + right. inversion H. eauto.
  - intros [-> | [t ->]].
    + now exists [].
    + now exists (c :: t).
Qed.

Lemma endswith_nil_r r : endswith r [] = str_eqb r [].
Proof.
  apply eq_true_iff_eq. rewrite str_eqb_eq, endswith_true. split.
  - intros [t H]. symmetry in H. now apply app_eq_nil in H.
  - intros ->. now exists [].
Qed.

(** *** Texts as words *)

Lemma untok_cons w d toks fin :
  untok ((w, d) :: toks) fin = w ++ d :: untok toks fin.
Proof. unfold untok. simpl. now rewrite <- !app_assoc. Qed.

Lemma untok_nil fin : untok [] fin = fin.
Proof. reflexivity. Qed.

Lemma untok_app t1 t2 fin : untok (t1 ++ t2) fin = untok t1 (untok t2 fin).
Proof. unfold untok. now rewrite flat_map_app, <- app_assoc. Qed.

Lemma tokenize_spec s :
  s = untok (fst (tokenize s)) (snd (tokenize s)) /\
  Forall wf_token (fst (tokenize s)) /\ plain (snd (tokenize s)).
Proof.
  induction s as [|c s [IH1 [IH2 IH3]]]; simpl.
  - repeat split. constructor.
  - destruct (tokenize s) as [toks fin]. simpl in *.
    destruct (is_delim c) eqn:Hc; simpl.
    + repeat split.
      * rewrite untok_cons. simpl. now rewrite <- IH1.
      * constructor; [| exact IH2]. split; [apply plain_nil | exact Hc].
      * exact IH3.
    + destruct toks as [|[w d] toks]; simpl.
      * repeat split.
        -- rewrite untok_nil in *. now rewrite <- IH1.
        -- constructor.
        -- apply plain_cons. split; assumption.
      * inversion_clear IH2 as [| ? ? [Hw Hd] Hr]. simpl in *. repeat split.
        -- rewrite untok_cons in *. simpl. now rewrite <- IH1.
        -- constructor; [| exact Hr]. split; simpl; [| exact Hd].
           apply plain_cons. split; assumption.
        -- exact IH3.
Qed.

Lemma wf_tokQ r ins o toks :
  plain ins -> Forall wf_token toks -> Forall wf_token (tokQ r ins o toks).
Proof.
  intros Hi H. revert o. induction H as [|[w d] toks [Hw Hd] H IH]; intros o; simpl.
  - constructor.
  - simpl in Hw, Hd. destruct (o && str_eqb w r && (d =? dquote)%N).
    + constructor; [| apply IH]. split; simpl; [| exact Hd].
      apply plain_app. split; assumption.
    + constructor; [| apply IH]. split; assumption.
Qed.

Lemma wf_tokN r ins toks :
  plain ins -> Forall wf_token toks -> Forall wf_token (tokN r ins toks).
Proof.
  intros Hi H. induction H as [|[w d] toks [Hw Hd] H IH]; simpl.
  - constructor.
  - constructor; [| exact IH]. unfold tokN_one. simpl in *.
    destruct ((d =? newline)%N && endswith r w); split; simpl; auto.
    apply plain_app. split; assumption.
Qed.

Lemma wf_tokstep toks item :
  plain (snd item) -> Forall wf_token toks -> Forall wf_token (tokstep toks item).
Proof.
  intros Hd H. unfold tokstep.
  apply wf_tokN, wf_tokQ; auto using plain_at_sign.
Qed.

(** *** The replacement of the quoted pattern, on words *)

Lemma quoted_nonempty r : quoted r <> [].
Proof. discriminate. Qed.

Lemma ended_nonempty r : ended r <> [].
Proof. unfold ended. destruct r; discriminate. Qed.

Lemma replaceQ_plain r new w s :
  plain w ->
  str_replace (quoted r) new (w ++ s) = w ++ str_replace (quoted r) new s.
Proof.
  induction w as [|c w IH]; intros Hw; [reflexivity|].
  apply plain_cons in Hw as [Hc Hw]. simpl.
  rewrite str_replace_miss.
  - now rewrite IH.
  - apply quoted_nonempty.
  - unfold quoted. cbn [startswith].
    destruct (N.eqb_spec dquote c) as [<-|]; [discriminate | reflexivity].
Qed.

Lemma replaceQ_tok r ins toks fin :
  plain r -> Forall wf_token toks -> plain fin ->
  str_replace (quoted r) (quoted (r ++ ins)) (untok toks fin)
  = untok (tokQ r ins false toks) fin /\
  str_replace (quoted r) (quoted (r ++ ins)) (dquote :: untok toks fin)
  = dquote :: untok (tokQ r ins true toks) fin.
Proof.
  intros Hr Ht Hf.
  induction Ht as [|[w d] toks [Hw Hd] Ht [IH1 IH2]]; cbn [tokQ andb fst snd] in *.
  - rewrite !untok_nil.
    assert (str_replace (quoted r) (quoted (r ++ ins)) fin = fin) as E.
    { rewrite <- (app_nil_r fin) at 1. rewrite replaceQ_plain by assumption.
      now rewrite app_nil_r. }
    split; [exact E|].
    rewrite str_replace_miss, E; [reflexivity | apply quoted_nonempty |].
    unfold quoted. cbn [startswith]. rewrite N.eqb_refl.
    apply plain_not_startswith; [assumption | reflexivity].
  - assert (str_replace (quoted r) (quoted (r ++ ins)) (untok ((w, d) :: toks) fin) =
            untok ((w, d) :: tokQ r ins (d =? dquote)%N toks) fin) as E.
    { rewrite !untok_cons, replaceQ_plain by assumption. f_equal.
      destruct (delim_cases _ Hd) as [-> | ->].
      - exact IH2.
      - rewrite str_replace_miss; [| apply quoted_nonempty | reflexivity].
        now rewrite IH1. }
    split; [exact E|].
    destruct (str_eqb w r && (d =? dquote)%N) eqn:Hhit.
    + apply andb_true_iff in Hhit as [Hwr Hdq].
      apply str_eqb_eq in Hwr. apply N.eqb_eq in Hdq. subst w d.
      rewrite !untok_cons.
      change (dquote :: r ++ dquote :: untok toks fin)
        with (dquote :: (r ++ dquote :: untok toks fin)).
      replace (dquote :: (r ++ dquote :: untok toks fin))
        with (quoted r ++ untok toks fin)
        by (unfold quoted; simpl; now rewrite <- app_assoc).
      rewrite str_replace_hit by apply quoted_nonempty.
      rewrite IH1. unfold quoted. cbn [app]. now rewrite <- !app_assoc.
    + rewrite str_replace_miss; [f_equal; exact E | apply quoted_nonempty |].
      rewrite untok_cons. unfold quoted. cbn [startswith]. rewrite N.eqb_refl.
      rewrite token_prefix by (assumption || reflexivity).
      rewrite str_eqb_sym, N.eqb_sym. exact Hhit.
Qed.

(** *** The replacement of the pattern before a line end, on words *)

Lemma replaceN_word r ins w d s :
  plain r -> plain w -> is_delim d = true ->
  str_replace (ended r) (ended (r ++ ins)) (w ++ d :: s)
  = (if (d =? newline)%N && endswith r w then w ++ ins else w)
      ++ d :: str_replace (ended r) (ended (r ++ ins)) s.
Proof.
  intros Hr Hw Hd.
  induction w as [|c w IH].
  - destruct (startswith (ended r) ([] ++ d :: s)) eqn:E.
    + unfold ended in E. rewrite token_prefix in E by (assumption || reflexivity).
      apply andb_true_iff in E as [E1 E2].
      apply str_eqb_eq in E1. apply N.eqb_eq in E2. subst r d.
      change ([] ++ newline :: s) with (ended [] ++ s).
      rewrite str_replace_hit by apply ended_nonempty.
      rewrite N.eqb_refl. unfold endswith, ended. cbn [rev startswith andb app].
      now rewrite <- app_assoc.
    + cbn [app] in *. rewrite str_replace_miss by (apply ended_nonempty || exact E).
      unfold ended in E. change (d :: s) with ([] ++ d :: s) in E.
      rewrite token_prefix in E by (assumption || reflexivity).
      rewrite endswith_nil_r, N.eqb_sym, andb_comm, E. reflexivity.
  - pose proof Hw as Hw'. apply plain_cons in Hw' as [Hc Hw'].
    destruct (startswith (ended r) ((c :: w) ++ d :: s)) eqn:E.
    + unfold ended in E. rewrite token_prefix in E by (assumption || reflexivity).
      apply andb_true_iff in E as [E1 E2].
      apply str_eqb_eq in E1. apply N.eqb_eq in E2. subst r d.
      replace ((c :: w) ++ newline :: s) with (ended (c :: w) ++ s)
        by (unfold ended; now rewrite <- app_assoc).
      rewrite str_replace_hit by apply ended_nonempty.
      rewrite N.eqb_refl. unfold endswith. rewrite startswith_refl.
      cbn [andb]. unfold ended. now rewrite <- !app_assoc.
    + change ((c :: w) ++ d :: s) with (c :: (w ++ d :: s)).
      rewrite str_replace_miss by (apply ended_nonempty || exact E).
      rewrite (IH Hw').
      unfold ended in E. rewrite token_prefix in E by (assumption || reflexivity).
      rewrite endswith_cons.
      destruct (N.eqb_spec d newline) as [->|Hn]; cbn [andb].
      * rewrite N.eqb_refl, andb_true_r in E. rewrite E. cbn [orb].
        destruct (endswith r w); reflexivity.
      * reflexivity.
Qed.

Lemma replaceN_tok r ins toks fin :
  plain r -> Forall wf_token toks -> plain fin ->
  str_replace (ended r) (ended (r ++ ins)) (untok toks fin)
  = untok (tokN r ins toks) fin.
Proof.
  intros Hr Ht Hf. induction Ht as [|[w d] toks [Hw Hd] Ht IH].
  - cbn [tokN map]. rewrite !untok_nil. apply str_replace_absent; [apply ended_nonempty|].
    unfold ended. apply plain_not_in; [assumption | reflexivity].
  - cbn [fst snd] in *. rewrite untok_cons, replaceN_word, IH by assumption.
    cbn [tokN map]. unfold tokN_one. cbn [fst snd].
    destruct ((d =? newline)%N && endswith r w); now rewrite untok_cons.
Qed.

(** One item of the image map, and all of them, on words. *)
Lemma replace_image_tok item toks fin :
  plain (fst item) -> plain (snd item) -> Forall wf_token toks -> plain fin ->
  replace_image (untok toks fin) item = untok (tokstep toks item) fin.
Proof.
  destruct item as [r d]. simpl. intros Hr Hd Ht Hf.
  unfold tokstep, pinned. simpl.
  destruct (replaceQ_tok r (at_sign :: d) toks fin Hr Ht Hf) as [-> _].
  apply replaceN_tok; try assumption.
  apply wf_tokQ; auto using plain_at_sign.
Qed.

Lemma replace_images_tok img_map toks fin :
  Forall (fun item => plain (fst item) /\ plain (snd item)) img_map ->
  Forall wf_token toks -> plain fin ->
  replace_images_text (untok toks fin) img_map
  = untok (fold_left tokstep img_map toks) fin.
Proof.
  unfold replace_images_text. intros Hm. revert toks.
  induction Hm as [|item img_map [Hr Hd] Hm IH]; intros toks Ht Hf; simpl.
  - reflexivity.
  - rewrite replace_image_tok by assumption.
    apply IH; [| exact Hf]. now apply wf_tokstep.
Qed.

(** * The replacements of two items commute *)

Lemma startswith_total a b s :
  startswith a s = true -> startswith b s = true ->
  startswith a b = true \/ startswith b a = true.
Proof.
  revert b s. induction a as [|x a IH]; intros b s Ha Hb.
  - left. reflexivity.
  - destruct b as [|y b]; [right; reflexivity|].
    destruct s as [|z s]; [discriminate|].
    cbn [startswith] in *.
    apply andb_true_iff in Ha as [Ha1 Ha2]. apply andb_true_iff in Hb as [Hb1 Hb2].
    apply N.eqb_eq in Ha1, Hb1. subst. rewrite N.eqb_refl. cbn [andb].
    eapply IH; eassumption.
Qed.

Lemma endswith_total a b s :
  endswith a s = true -> endswith b s = true ->
  endswith a b = true \/ endswith b a = true.
Proof. unfold endswith. apply startswith_total. Qed.

Lemma startswith_app_cases p a b :
  startswith p (a ++ b) = true ->
  startswith p a = true \/ exists p', p = a ++ p' /\ startswith p' b = true.
Proof.
  revert a. induction p as [|x p IH]; intros a H.
  - left. reflexivity.
  - destruct a as [|y a].
    + right. exists (x :: p). split; [reflexivity | exact H].
    + cbn [app startswith] in *. apply andb_true_iff in H as [H1 H2].
      apply N.eqb_eq in H1. subst y. rewrite N.eqb_refl. cbn [andb].
      destruct (IH a H2) as [H | [p' [-> H]]]; [left; exact H | right].
      exists p'. split; [reflexivity | exact H].
Qed.

Lemma at_free_In r : at_free r -> ~ In at_sign r.
Proof.
  unfold at_free. intros H Hin.
  assert (existsb (N.eqb at_sign) r = true) as E.
  { apply existsb_exists. exists at_sign. split; [exact Hin | apply N.eqb_refl]. }
  congruence.
Qed.

(** A reference without [@] that ends a pinned word ends its digest. *)
Lemma endswith_pinned r w d :
  at_free r -> endswith r (w ++ at_sign :: d) = true -> endswith r d = true.
Proof.
  intros Hr H. unfold endswith in *.
  rewrite rev_app_distr in H. cbn [rev] in H. rewrite <- app_assoc in H.
  apply startswith_app_cases in H as [H | [p' [E H]]]; [exact H|].
  destruct p' as [|x p'].
  - rewrite app_nil_r in E. rewrite E. apply startswith_refl.
  - cbn [app startswith] in H. apply andb_true_iff in H as [H _].
    apply N.eqb_eq in H. subst x. exfalso. apply (at_free_In r Hr).
    apply in_rev. rewrite E. apply in_or_app. right. now left.
Qed.

Lemma at_free_not_pinned r r' d : at_free r -> r <> r' ++ at_sign :: d.
Proof.
  intros Hr E. apply (at_free_In r Hr). rewrite E.
  apply in_or_app. right. now left.
Qed.

Lemma tokQ_cons r ins o w d rest :
  tokQ r ins o ((w, d) :: rest) =
  if o && str_eqb w r && (d =? dquote)%N
  then (w ++ ins, d) :: tokQ r ins false rest
  else (w, d) :: tokQ r ins (d =? dquote)%N rest.
Proof. reflexivity. Qed.

Lemma tokQ_nl r ins o w rest :
  tokQ r ins o ((w, newline) :: rest) = (w, newline) :: tokQ r ins false rest.
Proof.
  rewrite tokQ_cons. replace (newline =? dquote)%N with false by reflexivity.
  now rewrite andb_false_r.
Qed.

Lemma tokN_cons r ins t rest :
  tokN r ins (t :: rest) = tokN_one r ins t :: tokN r ins rest.
Proof. reflexivity. Qed.

Lemma tokN_one_nl r ins w :
  tokN_one r ins (w, newline) = ((if endswith r w then w ++ ins else w), newline).
Proof.
  unfold tokN_one. cbn [fst snd]. rewrite N.eqb_refl. cbn [andb].
  now destruct (endswith r w).
Qed.

Lemma tokN_one_other r ins w d :
  d <> newline -> tokN_one r ins (w, d) = (w, d).
Proof.
  intros H. unfold tokN_one. cbn [fst snd].
  apply N.eqb_neq in H. now rewrite H.
Qed.

Lemma tokQ_tokN_comm ra ia o rb ib toks :
  tokQ ra ia o (tokN rb ib toks) = tokN rb ib (tokQ ra ia o toks).
Proof.
  revert o. induction toks as [|[w d] toks IH]; intros o; [reflexivity|].
  rewrite tokN_cons. destruct (N.eq_dec d newline) as [->|Hn].
  - rewrite tokN_one_nl, !tokQ_nl, tokN_cons, tokN_one_nl, IH. reflexivity.
  - rewrite tokN_one_other, !tokQ_cons by assumption.
    destruct (o && str_eqb w ra && (d =? dquote)%N);
      rewrite tokN_cons, tokN_one_other, IH by assumption; reflexivity.
Qed.

Lemma tokQ_comm ra ia rb ib oa ob toks :
  ra <> rb -> ra <> rb ++ ib -> rb <> ra ++ ia ->
  tokQ ra ia oa (tokQ rb ib ob toks) = tokQ rb ib ob (tokQ ra ia oa toks).
Proof.
  intros Hab Ha Hb. revert oa ob.
  induction toks as [|[w d] toks IH]; intros oa ob; [reflexivity|].
  rewrite (tokQ_cons rb), (tokQ_cons ra).
  destruct (ob && str_eqb w rb && (d =? dquote)%N) eqn:Eb;
    destruct (oa && str_eqb w ra && (d =? dquote)%N) eqn:Ea.
  - apply andb_true_iff in Ea as [Ea _]. apply andb_true_iff in Ea as [_ Ea].
    apply andb_true_iff in Eb as [Eb _]. apply andb_true_iff in Eb as [_ Eb].
    apply str_eqb_eq in Ea, Eb. congruence.
  - rewrite !tokQ_cons, Eb.
    assert (str_eqb (w ++ ib) ra = false) as E.
    { apply str_eqb_neq. apply andb_true_iff in Eb as [Eb _].
      apply andb_true_iff in Eb as [_ Eb]. apply str_eqb_eq in Eb. congruence. }
    rewrite E, andb_false_r. cbn [andb]. now rewrite IH.
  - rewrite !tokQ_cons, Ea.
    assert (str_eqb (w ++ ia) rb = false) as E.
    { apply str_eqb_neq. apply andb_true_iff in Ea as [Ea _].
      apply andb_true_iff in Ea as [_ Ea]. apply str_eqb_eq in Ea. congruence. }
    rewrite E, andb_false_r. cbn [andb]. now rewrite IH.
  - rewrite !tokQ_cons, Ea, Eb, IH. reflexivity.
Qed.

Lemma tokN_comm ra ia rb ib toks :
  (forall w, endswith ra (w ++ ib) = false) ->
  (forall w, endswith rb (w ++ ia) = false) ->
  endswith ra rb = false -> endswith rb ra = false ->
  tokN ra ia (tokN rb ib toks) = tokN rb ib (tokN ra ia toks).
Proof.
  intros Ha Hb Hab Hba. induction toks as [|[w d] toks IH]; [reflexivity|].
  rewrite !tokN_cons, IH. f_equal.
  destruct (N.eq_dec d newline) as [->|Hn].
  - rewrite !tokN_one_nl.
    destruct (endswith rb w) eqn:Eb; destruct (endswith ra w) eqn:Ea;
      rewrite ?tokN_one_nl, ?Ha, ?Hb, ?Ea, ?Eb; try reflexivity.
    destruct (endswith_total _ _ _ Ea Eb); congruence.
  - rewrite !tokN_one_other by assumption. reflexivity.
Qed.

Lemma tokstep_comm toks e1 e2 :
  at_free (fst e1) -> at_free (fst e2) ->
  fst e1 <> fst e2 ->
  endswith (fst e1) (fst e2) = false -> endswith (fst e2) (fst e1) = false ->
  endswith (fst e1) (snd e2) = false -> endswith (fst e2) (snd e1) = false ->
  tokstep (tokstep toks e1) e2 = tokstep (tokstep toks e2) e1.
Proof.
  destruct e1 as [r1 d1], e2 as [r2 d2]. cbn [fst snd].
  intros F1 F2 Hne H12 H21 H1d H2d. unfold tokstep. cbn [fst snd].
  assert (forall w, endswith r1 (w ++ at_sign :: d2) = false) as A1.
  { intros w. destruct (endswith r1 (w ++ at_sign :: d2)) eqn:E; [| reflexivity].
    apply endswith_pinned in E; [congruence | assumption]. }
  assert (forall w, endswith r2 (w ++ at_sign :: d1) = false) as A2.
  { intros w. destruct (endswith r2 (w ++ at_sign :: d1)) eqn:E; [| reflexivity].
    apply endswith_pinned in E; [congruence | assumption]. }
  rewrite (tokQ_tokN_comm r2), (tokQ_tokN_comm r1).
  rewrite (tokN_comm r2 _ r1) by assumption.
  rewrite (tokQ_comm r2 _ r1); auto using at_free_not_pinned.
Qed.

Lemma fold_left_perm_comm (A B : Type) (f : A -> B -> A) l l' :
  Permutation l l' ->
  (forall x y, In x l -> In y l -> forall a, f (f a x) y = f (f a y) x) ->
  forall a, fold_left f l a = fold_left f l' a.
Proof.
  induction 1 as [| x l l' HP IH | x y l | l l' l'' HP1 IH1 HP2 IH2];
    intros Hc a; cbn [fold_left].
  - reflexivity.
  - apply IH. intros u v Hu Hv. apply Hc; now right.
  - f_equal. apply Hc; [now left | right; now left].
  - rewrite IH1 by assumption. apply IH2.
    intros u v Hu Hv. apply Hc; eapply Permutation_in; try eassumption;
      now apply Permutation_sym.
Qed.

Lemma nodup_keys_entry (m : dict) x y :
  NoDup (dict_keys m) -> In x m -> In y m -> fst x = fst y -> x = y.
Proof.
  unfold dict_keys. induction m as [|e m IH]; intros Hn Hx Hy E; [destruct Hx|].
  cbn [map] in Hn. inversion_clear Hn as [| ? ? Hnot Hn'].
  destruct Hx as [-> | Hx], Hy as [-> | Hy].
  - reflexivity.
  - exfalso. apply Hnot. rewrite E. now apply in_map.
  - exfalso. apply Hnot. rewrite <- E. now apply in_map.
  - now apply IH.
Qed.

(** * A second pass finds nothing to replace *)

Lemma candQ_cons r o w d rest :
  candQ r o ((w, d) :: rest) =
  o && str_eqb w r && (d =? dquote)%N || candQ r (d =? dquote)%N rest.
Proof. reflexivity. Qed.

Lemma tokQ_no_cand r ins o toks : candQ r o toks = false -> tokQ r ins o toks = toks.
Proof.
  revert o. induction toks as [|[w d] toks IH]; intros o H; [reflexivity|].
  rewrite candQ_cons in H. apply orb_false_iff in H as [H1 H2].
  rewrite tokQ_cons, H1, IH by assumption. reflexivity.
Qed.

Lemma tokN_no_cand r ins toks : candN r toks = false -> tokN r ins toks = toks.
Proof.
  unfold candN. induction toks as [|[w d] toks IH]; intros H; [reflexivity|].
  cbn [existsb fst snd] in H. apply orb_false_iff in H as [H1 H2].
  rewrite tokN_cons, IH by assumption. unfold tokN_one. cbn [fst snd].
  now rewrite H1.
Qed.

Lemma candQ_tokN r o r' i' toks : candQ r o (tokN r' i' toks) = candQ r o toks.
Proof.
  revert o. induction toks as [|[w d] toks IH]; intros o; [reflexivity|].
  rewrite tokN_cons. destruct (N.eq_dec d newline) as [->|Hn].
  - rewrite tokN_one_nl, !candQ_cons, IH.
    replace (newline =? dquote)%N with false by reflexivity.
    now rewrite !andb_false_r.
  - rewrite tokN_one_other, !candQ_cons, IH by assumption. reflexivity.
Qed.

Lemma candN_tokQ r r' i' o toks : candN r (tokQ r' i' o toks) = candN r toks.
Proof.
  unfold candN. revert o. induction toks as [|[w d] toks IH]; intros o; [reflexivity|].
  rewrite tokQ_cons.
  destruct (o && str_eqb w r' && (d =? dquote)%N) eqn:E; cbn [existsb fst snd];
    rewrite IH; [| reflexivity].
  apply andb_true_iff in E as [_ E]. apply N.eqb_eq in E. subst d.
  replace (dquote =? newline)%N with false by reflexivity. reflexivity.
Qed.

Lemma candQ_tokQ r o r' i' o' toks :
  r <> r' ++ i' ->
  candQ r o (tokQ r' i' o' toks) = true -> candQ r o toks = true.
Proof.
  intros Hne. revert o o'. induction toks as [|[w d] toks IH]; intros o o' H;
    [discriminate|].
  rewrite tokQ_cons in H. rewrite candQ_cons.
  destruct (o' && str_eqb w r' && (d =? dquote)%N) eqn:E;
    rewrite candQ_cons in H; apply orb_true_iff in H as [H | H];
    apply orb_true_iff.
  - exfalso. apply andb_true_iff in H as [H _]. apply andb_true_iff in H as [_ H].
    apply str_eqb_eq in H.
    apply andb_true_iff in E as [E _]. apply andb_true_iff in E as [_ E].
    apply str_eqb_eq in E. congruence.
  - right. apply andb_true_iff in E as [_ E]. rewrite E in *. eapply IH, H.
  - left. exact H.
  - right. eapply IH, H.
Qed.

Lemma candN_tokN r r' i' toks :
  (forall w, endswith r (w ++ i') = false) ->
  candN r (tokN r' i' toks) = true -> candN r toks = true.
Proof.
  intros Hs. unfold candN. induction toks as [|[w d] toks IH]; intros H;
    [discriminate|].
  rewrite tokN_cons in H. cbn [existsb] in *.
  apply orb_true_iff in H as [H | H]; apply orb_true_iff; [| right; auto].
  left. unfold tokN_one in H. cbn [fst snd] in *.
  destruct ((d =? newline)%N && endswith r' w); [| exact H].
  cbn [fst snd] in H. now rewrite Hs, andb_false_r in H.
Qed.

Lemma candN_own r ins toks :
  (forall w, endswith r (w ++ ins) = false) -> candN r (tokN r ins toks) = false.
Proof.
  intros Hs. unfold candN. induction toks as [|[w d] toks IH]; [reflexivity|].
  rewrite tokN_cons. cbn [existsb]. rewrite IH, orb_false_r.
  unfold tokN_one. cbn [fst snd].
  destruct ((d =? newline)%N && endswith r w) eqn:E; cbn [fst snd].
  - now rewrite Hs, andb_false_r.
  - exact E.
Qed.

Lemma ovlQ_cons r o w d rest :
  ovlQ r o ((w, d) :: rest) =
  o && str_eqb w r && (d =? dquote)%N &&
    match rest with
    | (w2, d2) :: _ => str_eqb w2 r && (d2 =? dquote)%N
    | [] => false
    end
  || ovlQ r (d =? dquote)%N rest.
Proof. reflexivity. Qed.

(** Without two words [r] around one quote, every word [r] between quotes
    is replaced. *)
Lemma candQ_own r ins toks :
  ins <> [] ->
  (forall o, ovlQ r o toks = false -> candQ r o (tokQ r ins o toks) = false) /\
  (ovlQ r true toks = false ->
   match toks with
   | (w, d) :: _ => str_eqb w r && (d =? dquote)%N = false
   | [] => True
   end ->
   candQ r true (tokQ r ins false toks) = false).
Proof.
  intros Hi.
  assert (forall w, str_eqb (w ++ ins) w = false) as Hne.
  { intros w. apply str_eqb_neq. intros E.
    apply (f_equal (@length char)) in E. rewrite length_app in E.
    destruct ins; [congruence | simpl in E; lia]. }
  induction toks as [|[w d] toks [IHa IHb]]; [split; reflexivity|].
  split.
  - intros o H. rewrite ovlQ_cons in H. apply orb_false_iff in H as [H1 H2].
    rewrite tokQ_cons.
    destruct (o && str_eqb w r && (d =? dquote)%N) eqn:E.
    + cbn [andb] in H1.
      apply andb_true_iff in E as [E Ed]. apply andb_true_iff in E as [Eo Ew].
      apply str_eqb_eq in Ew. apply N.eqb_eq in Ed. subst w d.
      rewrite candQ_cons, Hne, andb_false_r. cbn [andb orb].
      replace (dquote =? dquote)%N with true in * by reflexivity.
      apply IHb; [exact H2|]. destruct toks as [|[w2 d2] ?]; [exact I | exact H1].
    + rewrite candQ_cons, E. cbn [orb]. apply IHa, H2.
  - intros H Hhd. rewrite ovlQ_cons in H. apply orb_false_iff in H as [_ H2].
    rewrite tokQ_cons. cbn [andb]. rewrite candQ_cons. cbn [andb].
    rewrite Hhd. cbn [orb]. apply IHa, H2.
Qed.

Lemma ovlQ_tokN r o r' i' toks : ovlQ r o (tokN r' i' toks) = ovlQ r o toks.
Proof.
  revert o. induction toks as [|[w d] toks IH]; intros o; [reflexivity|].
  rewrite tokN_cons. destruct (N.eq_dec d newline) as [->|Hn].
  - rewrite tokN_one_nl, !ovlQ_cons, IH.
    replace (newline =? dquote)%N with false by reflexivity.
    now rewrite !andb_false_r.
  - rewrite tokN_one_other, !ovlQ_cons, IH by assumption. f_equal. f_equal.
    destruct toks as [|[w2 d2] toks]; [reflexivity|].
    rewrite tokN_cons. destruct (N.eq_dec d2 newline) as [->|Hn2].
    + rewrite tokN_one_nl. replace (newline =? dquote)%N with false by reflexivity.
      now rewrite !andb_false_r.
    + now rewrite tokN_one_other.
Qed.

Lemma ovlQ_tokQ r o r' i' o' toks :
  r <> r' ++ i' ->
  ovlQ r o (tokQ r' i' o' toks) = true -> ovlQ r o toks = true.
Proof.
  intros Hne. revert o o'. induction toks as [|[w d] toks IH]; intros o o' H;
    [discriminate|].
  assert (forall w0, str_eqb w0 r' = true -> str_eqb (w0 ++ i') r = false) as Hf.
  { intros w0 E. apply str_eqb_eq in E. subst w0. apply str_eqb_neq. congruence. }
  rewrite tokQ_cons in H. rewrite ovlQ_cons.
  destruct (o' && str_eqb w r' && (d =? dquote)%N) eqn:E;
    rewrite ovlQ_cons in H; apply orb_true_iff in H as [H | H];
    apply orb_true_iff.
  - exfalso. apply andb_true_iff in E as [E _]. apply andb_true_iff in E as [_ E].
    rewrite (Hf _ E), andb_false_r in H. discriminate.
  - right. apply andb_true_iff in E as [_ E]. rewrite E in *. eapply IH, H.
  - left. apply andb_true_iff in H as [H1 H2]. rewrite H1. cbn [andb].
    destruct toks as [|[w2 d2] toks]; [discriminate|].
    rewrite tokQ_cons in H2.
    destruct ((d =? dquote)%N && str_eqb w2 r' && (d2 =? dquote)%N) eqn:E2;
      [| exact H2].
    apply andb_true_iff in E2 as [E2 _]. apply andb_true_iff in E2 as [_ E2].
    now rewrite (Hf _ E2) in H2.
  - right. eapply IH, H.
Qed.


Lemma endswith_pinned_false r d :
  at_free r -> endswith r d = false ->
  forall w, endswith r (w ++ at_sign :: d) = false.
Proof.
  intros Hr Hd w. destruct (endswith r (w ++ at_sign :: d)) eqn:E; [| reflexivity].
  apply endswith_pinned in E; [congruence | exact Hr].
Qed.

Lemma no_cand_own r d toks :
  at_free r -> endswith r d = false -> ovlQ r false toks = false ->
  no_cand r (tokstep toks (r, d)).
Proof.
  intros Hr Hd Ho. unfold no_cand, tokstep. cbn [fst snd]. split.
  - rewrite candQ_tokN. apply candQ_own; [discriminate | exact Ho].
  - apply candN_own. now apply endswith_pinned_false.
Qed.

Lemma no_cand_other r r' d' toks :
  at_free r -> endswith r d' = false -> no_cand r toks ->
  no_cand r (tokstep toks (r', d')).
Proof.
  intros Hr Hd [Hq Hn]. unfold no_cand, tokstep. cbn [fst snd]. split.
  - rewrite candQ_tokN.
    destruct (candQ r false (tokQ r' (at_sign :: d') false toks)) eqn:E;
      [| reflexivity].
    apply candQ_tokQ in E; [congruence | now apply at_free_not_pinned].
  - destruct (candN r (tokN r' (at_sign :: d')
                         (tokQ r' (at_sign :: d') false toks))) eqn:E;
      [| reflexivity].
    apply candN_tokN in E; [| now apply endswith_pinned_false].
    rewrite candN_tokQ in E. congruence.
Qed.

Lemma no_ovl_other r r' d' toks :
  at_free r -> ovlQ r false toks = false ->
  ovlQ r false (tokstep toks (r', d')) = false.
Proof.
  intros Hr Ho. unfold tokstep. cbn [fst snd]. rewrite ovlQ_tokN.
  destruct (ovlQ r false (tokQ r' (at_sign :: d') false toks)) eqn:E;
    [| reflexivity].
  apply ovlQ_tokQ in E; [congruence | now apply at_free_not_pinned].
Qed.

Lemma no_cand_step r d toks : no_cand r toks -> tokstep toks (r, d) = toks.
Proof.
  intros [Hq Hn]. unfold tokstep. cbn [fst snd].
  rewrite tokQ_no_cand by assumption. now apply tokN_no_cand.
Qed.

(** The map entries that the idempotence needs: no reference holds [@], and
    none ends a digest of the map. *)
Lemma first_pass (img_map : dict) :
  (forall e, In e img_map -> at_free (fst e)) ->
  (forall e e', In e img_map -> In e' img_map -> endswith (fst e) (snd e') = false) ->
  forall todo done toks,
    (forall e, In e (done ++ todo) -> In e img_map) ->
    (forall e, In e done -> no_cand (fst e) toks) ->
    (forall e, In e todo -> ovlQ (fst e) false toks = false) ->
    forall e, In e (done ++ todo) -> no_cand (fst e) (fold_left tokstep todo toks).
Proof.
  intros Hat Hsuf. induction todo as [|[r d] todo IH]; intros done toks Hin Hd Ht e He.
  - rewrite app_nil_r in He. now apply Hd.
  - cbn [fold_left].
    assert (In (r, d) img_map) as Hrd.
    { apply Hin. apply in_or_app. right. now left. }
    apply (IH (done ++ [(r, d)])).
    + intros e0 H0. apply Hin. rewrite <- app_assoc in H0. exact H0.
    + intros e0 H0. apply in_app_or in H0 as [H0 | [<- | []]].
      * assert (In e0 img_map) as Hi0 by (apply Hin, in_or_app; now left).
        apply no_cand_other;
          [apply (Hat _ Hi0) | apply (Hsuf e0 (r, d) Hi0 Hrd) | apply (Hd _ H0)].
      * apply no_cand_own;
          [apply (Hat _ Hrd) | apply (Hsuf (r, d) (r, d) Hrd Hrd) |].
        apply (Ht (r, d)). now left.
    + intros e0 H0. apply no_ovl_other.
      * apply Hat, Hin. apply in_or_app. right. now right.
      * apply Ht. now right.
    + rewrite <- app_assoc. exact He.
Qed.

Lemma second_pass (img_map : dict) toks :
  (forall e, In e img_map -> no_cand (fst e) toks) ->
  fold_left tokstep img_map toks = toks.
Proof.
  induction img_map as [|[r d] m IH]; intros H; [reflexivity|].
  cbn [fold_left]. rewrite no_cand_step.
  - apply IH. intros e He. apply H. now right.
  - apply (H (r, d)). now left.
Qed.

Lemma ovlQ_in_text r toks fin o :
  ovlQ r o toks = true ->
  str_in (shared_quote r) ((if o then [dquote] else []) ++ untok toks fin) = true.
Proof.
  revert o. induction toks as [|[w d] toks IH]; intros o H; [discriminate|].
  rewrite ovlQ_cons in H. apply orb_true_iff in H as [H | H].
  - apply andb_true_iff in H as [H H2]. apply andb_true_iff in H as [H Hd].
    apply andb_true_iff in H as [Ho Hw].
    destruct toks as [|[w2 d2] toks]; [discriminate|].
    apply andb_true_iff in H2 as [Hw2 Hd2].
    apply str_eqb_eq in Hw, Hw2. apply N.eqb_eq in Hd, Hd2. subst.
    rewrite !untok_cons. apply str_in_true.
    exists [], (untok toks fin). unfold shared_quote. cbn [app].
    f_equal. rewrite <- !app_assoc. cbn [app]. f_equal. f_equal.
    rewrite <- !app_assoc. reflexivity.
  - apply IH in H. apply str_in_true in H as [a [b H]].
    rewrite untok_cons. apply str_in_true.
    destruct (N.eqb_spec d dquote) as [->|Hn].
    + exists ((if o then [dquote] else []) ++ w ++ a), b.
      cbn [app] in H. rewrite <- !app_assoc. f_equal. f_equal.
      rewrite H. reflexivity.
    + exists ((if o then [dquote] else []) ++ w ++ d :: a), b.
      cbn [app] in H. rewrite H. rewrite <- !app_assoc. reflexivity.
Qed.

Lemma wf_fold_tokstep (img_map : dict) toks :
  Forall (fun item => plain (fst item) /\ plain (snd item)) img_map ->
  Forall wf_token toks -> Forall wf_token (fold_left tokstep img_map toks).
Proof.
  intros Hm. revert toks.
  induction Hm as [|e m [_ Hd] _ IH]; intros toks Hwf; cbn [fold_left].
  - exact Hwf.
  - apply IH. now apply wf_tokstep.
Qed.

Lemma replace_images_idempotent text (img_map : dict) :
  (forall e, In e img_map ->
     plain (fst e) /\ plain (snd e) /\ at_free (fst e) /\
     str_in (shared_quote (fst e)) text = false) ->
  (forall e e', In e img_map -> In e' img_map -> endswith (fst e) (snd e') = false) ->
  replace_images_text (replace_images_text text img_map) img_map
  = replace_images_text text img_map.
Proof.
  intros He Hsuf.
  destruct (tokenize_spec text) as [Et [Hwf Hfin]].
  set (toks := fst (tokenize text)) in *. set (fin := snd (tokenize text)) in *.
  assert (Forall (fun item => plain (fst item) /\ plain (snd item)) img_map) as Hpl.
  { apply Forall_forall. intros e H. destruct (He e H) as [? [? _]]. now split. }
  rewrite Et at 1 2. rewrite !replace_images_tok; try assumption.
  - f_equal. apply second_pass. intros e Hin.
    apply (first_pass img_map) with (done := []); cbn [app]; auto.
    + intros e0 H0. apply (He e0 H0).
    + intros e0 [].
    + intros e0 H0. destruct (ovlQ (fst e0) false toks) eqn:E; [| reflexivity].
      apply (ovlQ_in_text _ _ fin) in E. cbn [app] in E. rewrite <- Et in E.
      destruct (He e0 H0) as [_ [_ [_ Hno]]]. congruence.
  - now apply wf_fold_tokstep.
Qed.

(** * Anchored occurrences *)

Lemma text_as_words s :
  exists toks fin, s = untok toks fin /\ Forall wf_token toks /\ plain fin.
Proof.
  exists (fst (tokenize s)), (snd (tokenize s)). apply tokenize_spec.
Qed.

Lemma untok_fin toks a b : untok toks (a ++ b) = untok toks a ++ b.
Proof. unfold untok. now rewrite app_assoc. Qed.

Lemma untok_split toks fin : untok toks fin = untok toks [] ++ fin.
Proof. now rewrite <- untok_fin. Qed.

Lemma tokQ_app r ins o t1 t2 :
  tokQ r ins o (t1 ++ t2) = tokQ r ins o t1 ++ tokQ r ins (stateQ r o t1) t2.
Proof.
  revert o. induction t1 as [|[w d] t1 IH]; intros o; [reflexivity|].
  cbn [app]. rewrite !tokQ_cons. cbn [stateQ].
  destruct (o && str_eqb w r && (d =? dquote)%N); rewrite IH; reflexivity.
Qed.

Lemma tokN_app r ins t1 t2 : tokN r ins (t1 ++ t2) = tokN r ins t1 ++ tokN r ins t2.
Proof. apply map_app. Qed.

Lemma stateQ_true_last r o toks :
  stateQ r o toks = true -> toks <> [] -> exists t w, toks = t ++ [(w, dquote)].
Proof.
  revert o. induction toks as [|[w d] toks IH]; intros o H Hne; [congruence|].
  cbn [stateQ] in H. destruct toks as [|t' toks].
  - cbn [stateQ] in H.
    destruct (o && str_eqb w r && (d =? dquote)%N); [discriminate|].
    apply N.eqb_eq in H. subst d. now exists [], w.
  - assert (exists t w0, t' :: toks = t ++ [(w0, dquote)]) as [t [w0 E]].
    { destruct (o && str_eqb w r && (d =? dquote)%N);
        eapply IH; try eassumption; discriminate. }
    exists ((w, d) :: t), w0. now rewrite E.
Qed.

(** An occurrence before a line end: the item reaches it exactly when its
    reference ends the word that the occurrence ends. *)
Lemma replace_image_line_tok r d tX x rstar Y :
  plain r -> plain d -> plain rstar -> Forall wf_token tX -> plain x ->
  replace_image (untok tX x ++ rstar ++ newline :: Y) (r, d)
  = replace_image (untok tX x) (r, d) ++ rstar
    ++ (if endswith r (x ++ rstar) then at_sign :: d else [])
    ++ newline :: replace_image Y (r, d).
Proof.
  intros Hr Hd Hs WX PX.
  destruct (text_as_words Y) as [tY [y [-> [WY PY]]]].
  assert (untok tX x ++ rstar ++ newline :: untok tY y
          = untok (tX ++ (x ++ rstar, newline) :: tY) y) as E.
  { untok_norm. reflexivity. }
  rewrite E, !replace_image_tok; cbn [fst snd]; try assumption.
  - unfold tokstep. cbn [fst snd].
    rewrite tokQ_app, tokQ_nl, tokN_app, tokN_cons, tokN_one_nl.
    destruct (endswith r (x ++ rstar)); untok_norm; reflexivity.
  - apply Forall_app. split; [exact WX|]. constructor; [| exact WY].
    split; [apply plain_app; now split | reflexivity].
Qed.

(** An occurrence of the reference of the item before a line end receives
    the digest. *)
Lemma replace_image_own_line r d X Y :
  plain r -> plain d ->
  replace_image (X ++ r ++ newline :: Y) (r, d)
  = replace_image X (r, d) ++ r ++ at_sign :: d ++ newline :: replace_image Y (r, d).
Proof.
  intros Hr Hd. destruct (text_as_words X) as [tX [x [-> [WX PX]]]].
  rewrite replace_image_line_tok by assumption.
  now rewrite endswith_app.
Qed.

(** An occurrence of another reference before a line end is left as it is
    when neither reference ends the other. *)
Lemma replace_image_other_line r d X rstar Y :
  plain r -> plain d -> plain rstar ->
  endswith r rstar = false -> endswith rstar r = false ->
  replace_image (X ++ rstar ++ newline :: Y) (r, d)
  = replace_image X (r, d) ++ rstar ++ newline :: replace_image Y (r, d).
Proof.
  intros Hr Hd Hs H1 H2. destruct (text_as_words X) as [tX [x [-> [WX PX]]]].
  rewrite replace_image_line_tok by assumption.
  destruct (endswith r (x ++ rstar)) eqn:E; [| reflexivity].
  destruct (endswith_total _ _ _ E (endswith_app x rstar)); congruence.
Qed.

(** A quoted occurrence of another reference is left as it is. *)
Lemma replace_image_other_quoted r d X rstar Y :
  plain r -> plain d -> plain rstar -> rstar <> r ->
  replace_image (X ++ dquote :: rstar ++ dquote :: Y) (r, d)
  = replace_image (X ++ [dquote]) (r, d) ++ rstar ++ replace_image (dquote :: Y) (r, d).
Proof.
  intros Hr Hd Hs Hne.
  destruct (text_as_words X) as [tX [x [-> [WX PX]]]].
  destruct (text_as_words Y) as [tY [y [-> [WY PY]]]].
  assert (untok tX x ++ [dquote] = untok (tX ++ [(x, dquote)]) []) as E1.
  { untok_norm. reflexivity. }
  assert (dquote :: untok tY y = untok (([], dquote) :: tY) y) as E2.
  { untok_norm. reflexivity. }
  assert (untok tX x ++ dquote :: rstar ++ dquote :: untok tY y
          = untok ((tX ++ [(x, dquote)]) ++ (rstar, dquote) :: tY) y) as E.
  { untok_norm. reflexivity. }
  assert (Forall wf_token (tX ++ [(x, dquote)])) as W1.
  { apply Forall_app. split; [exact WX|]. constructor; [| constructor].
    split; [exact PX | reflexivity]. }
  rewrite E, E1, E2, !replace_image_tok; cbn [fst snd]; try assumption;
    try apply plain_nil.
  - unfold tokstep. cbn [fst snd].
    rewrite tokQ_app, (tokQ_cons r _ _ rstar), (str_eqb_neq _ _ Hne).
    rewrite andb_false_r. cbn [andb].
    rewrite (tokQ_cons r _ false []). cbn [andb].
    rewrite !tokN_app, !tokN_cons, !tokN_one_other by discriminate.
    rewrite tokQ_app. cbn [tokQ tokN map]. untok_norm. reflexivity.
  - constructor; [| exact WY]. split; [apply plain_nil | reflexivity].
  - apply Forall_app. split; [exact W1|]. constructor; [| exact WY].
    split; [exact Hs | reflexivity].
Qed.

(** A quoted occurrence of the reference of the item receives the digest,
    when its first quote does not end an earlier quoted occurrence. *)
Lemma replace_image_own_quoted r d X Y :
  plain r -> plain d -> endswith (dquote :: r) X = false ->
  replace_image (X ++ dquote :: r ++ dquote :: Y) (r, d)
  = replace_image X (r, d) ++ dquote :: r ++ at_sign :: d
    ++ dquote :: replace_image Y (r, d).
Proof.
  intros Hr Hd Hend.
  destruct (text_as_words X) as [tX [x [-> [WX PX]]]].
  destruct (text_as_words Y) as [tY [y [-> [WY PY]]]].
  assert (untok tX x ++ dquote :: r ++ dquote :: untok tY y
          = untok (tX ++ (x, dquote) :: (r, dquote) :: tY) y) as E.
  { untok_norm. reflexivity. }
  assert (stateQ r false tX && str_eqb x r = false) as Hst.
  { destruct (stateQ r false tX) eqn:Es; [| reflexivity].
    destruct (str_eqb x r) eqn:Ex; [| reflexivity]. exfalso.
    apply str_eqb_eq in Ex. subst x.
    destruct tX as [|t0 tX0] eqn:EtX; [discriminate|].
    destruct (stateQ_true_last r false (t0 :: tX0) Es) as [t [w Et]];
      [discriminate|].
    rewrite Et, untok_app, untok_cons, untok_nil in Hend.
    assert (endswith (dquote :: r) (untok t (w ++ dquote :: r)) = true) as Hc.
    { apply endswith_true. exists (untok t [] ++ w).
      rewrite (untok_split t), <- !app_assoc. reflexivity. }
    congruence. }
  rewrite E, !replace_image_tok; cbn [fst snd]; try assumption.
  - unfold tokstep. cbn [fst snd].
    rewrite tokQ_app, (tokQ_cons r _ _ x), Hst. cbn [andb].
    rewrite (tokQ_cons r _ _ r), N.eqb_refl, str_eqb_refl. cbn [andb].
    rewrite tokN_app, !tokN_cons, !tokN_one_other by discriminate.
    untok_norm. reflexivity.
  - apply Forall_app. split; [exact WX|].
    constructor; [split; [exact PX | reflexivity]|].
    constructor; [split; [exact Hr | reflexivity] | exact WY].
Qed.

(** * De-duplication *)

Lemma str_ltb_irrefl a : str_ltb a a = false.
Proof.
  induction a as [|x a IH]; [reflexivity|].
  cbn [str_ltb]. rewrite N.ltb_irrefl, N.eqb_refl, IH. reflexivity.
Qed.

Lemma str_ltb_trans a b c :
  str_ltb a b = true -> str_ltb b c = true -> str_ltb a c = true.
Proof.
  revert b c. induction a as [|x a IH]; intros [|y b] [|z c] H1 H2;
    try discriminate; try reflexivity.
  cbn [str_ltb] in *.
  apply orb_true_iff in H1 as [H1 | H1]; apply orb_true_iff in H2 as [H2 | H2];
    apply orb_true_iff.
  - left. apply N.ltb_lt in H1, H2. apply N.ltb_lt. lia.
  - apply andb_true_iff in H2 as [H2 _]. apply N.eqb_eq in H2. subst. now left.
  - apply andb_true_iff in H1 as [H1 _]. apply N.eqb_eq in H1. subst. now left.
  - apply andb_true_iff in H1 as [E1 H1]. apply andb_true_iff in H2 as [E2 H2].
    apply N.eqb_eq in E1, E2. subst. right. rewrite N.eqb_refl. cbn [andb].
    eapply IH; eassumption.
Qed.

Lemma str_ltb_total a b :
  str_ltb a b = false -> str_ltb b a = false -> a = b.
Proof.
  revert b. induction a as [|x a IH]; intros [|y b] H1 H2;
    try discriminate; try reflexivity.
  cbn [str_ltb] in *.
  apply orb_false_iff in H1 as [L1 E1]. apply orb_false_iff in H2 as [L2 E2].
  apply N.ltb_ge in L1, L2. assert (x = y) by lia. subst y.
  rewrite N.eqb_refl in E1, E2. cbn [andb] in *. f_equal. now apply IH.
Qed.

Lemma In_sorted_insert x y l : In y (sorted_insert x l) <-> y = x \/ In y l.
Proof.
  induction l as [|z l IH]; cbn [sorted_insert].
  - cbn [In]. intuition.
  - destruct (str_ltb z x); cbn [In]; [rewrite IH|]; intuition.
Qed.

Lemma In_sorted x l : In x (sorted l) <-> In x l.
Proof.
  induction l as [|y l IH]; [reflexivity|].
  cbn [sorted]. rewrite In_sorted_insert, IH. cbn [In]. intuition.
Qed.

Lemma sorted_insert_strict x l :
  StronglySorted str_lt l -> ~ In x l -> StronglySorted str_lt (sorted_insert x l).
Proof.
  induction l as [|y l IH]; intros Hs Hn; cbn [sorted_insert].
  - constructor; constructor.
  - inversion_clear Hs as [| ? ? Hs' Hall].
    destruct (str_ltb y x) eqn:E.
    + constructor.
      * apply IH; [exact Hs' | intros H; apply Hn; now right].
      * apply Forall_forall. intros z Hz. apply In_sorted_insert in Hz as [-> | Hz].
        -- exact E.
        -- rewrite Forall_forall in Hall. now apply Hall.
    + assert (str_ltb x y = true) as Hxy.
      { destruct (str_ltb x y) eqn:E2; [reflexivity|].
        exfalso. apply Hn. left. symmetry. now apply str_ltb_total. }
      constructor; [constructor; assumption|].
      constructor; [exact Hxy|].
      rewrite Forall_forall in *. intros z Hz.
      eapply str_ltb_trans; [exact Hxy | now apply Hall].
Qed.

Lemma sorted_strict l : NoDup l -> StronglySorted str_lt (sorted l).
Proof.
  induction 1 as [|x l Hn Hd IH]; cbn [sorted]; [constructor|].
  apply sorted_insert_strict; [exact IH | now rewrite In_sorted].
Qed.

Lemma strict_NoDup l : StronglySorted str_lt l -> NoDup l.
Proof.
  induction 1 as [|x l Hs IH Hall]; constructor; [| exact IH].
  intros Hin. rewrite Forall_forall in Hall. apply Hall in Hin.
  unfold str_lt in Hin. now rewrite str_ltb_irrefl in Hin.
Qed.

(** Two strictly ascending lists with the same elements are equal. *)
Lemma strict_unique l1 l2 :
  StronglySorted str_lt l1 -> StronglySorted str_lt l2 ->
  (forall x, In x l1 <-> In x l2) -> l1 = l2.
Proof.
  intros H1. revert l2. induction H1 as [|a l1 Hs1 IH Ha]; intros l2 H2 Heq.
  - destruct l2 as [|b l2]; [reflexivity|].
    exfalso. apply (proj2 (Heq b)). now left.
  - destruct H2 as [|b l2 Hs2 Hb].
    + exfalso. apply (proj1 (Heq a)). now left.
    + rewrite Forall_forall in Ha, Hb.
      assert (forall x, str_ltb x x = true -> False) as Hirr.
      { intros x Hx. now rewrite str_ltb_irrefl in Hx. }
      assert (a = b) as ->.
      { destruct (proj1 (Heq a) (or_introl eq_refl)) as [E | Hin]; [now symmetry|].
        destruct (proj2 (Heq b) (or_introl eq_refl)) as [E | Hin2]; [exact E|].
        exfalso. apply (Hirr a).
        eapply str_ltb_trans; [apply Ha, Hin2 | apply Hb, Hin]. }
      f_equal. apply IH; [exact Hs2|]. intros x. split; intros Hx.
      * destruct (proj1 (Heq x) (or_intror Hx)) as [E | Hin]; [| exact Hin].
        exfalso. subst x. apply (Hirr b). now apply Ha.
      * destruct (proj2 (Heq x) (or_intror Hx)) as [E | Hin]; [| exact Hin].
        exfalso. subst x. apply (Hirr b). now apply Hb.
Qed.

Lemma In_dedupe x l : In x (dedupe l) <-> In x l.
Proof. unfold dedupe, list_set. now rewrite In_sorted, nodup_In. Qed.

Lemma dedupe_strict l : StronglySorted str_lt (dedupe l).
Proof. unfold dedupe, list_set. apply sorted_strict, NoDup_nodup. Qed.

(** * The scan of the lines *)

Lemma lstrip_suffix s : exists a, s = a ++ lstrip s.
Proof.
  induction s as [|c s [a IH]]; [now exists []|].
  cbn [lstrip]. destruct (isspace c).
  - exists (c :: a). cbn [app]. now rewrite <- IH.
  - now exists [].
Qed.

Lemma lstrip_head s c t : lstrip s = c :: t -> isspace c = false.
Proof.
  induction s as [|x s IH]; [discriminate|].
  cbn [lstrip]. destruct (isspace x) eqn:E; [exact IH|].
  intros H. inversion H. now subst.
Qed.

Lemma rstrip_prefix s : exists b, s = rstrip s ++ b.
Proof.
  unfold rstrip. destruct (lstrip_suffix (rev s)) as [a H].
  exists (rev a). rewrite <- rev_app_distr, <- H. now rewrite rev_involutive.
Qed.

Lemma rstrip_last s t c : rstrip s = t ++ [c] -> isspace c = false.
Proof.
  unfold rstrip. intros H. apply (f_equal (@rev char)) in H.
  rewrite rev_involutive, rev_app_distr in H. cbn [rev app] in H.
  eapply lstrip_head, H.
Qed.

Lemma rstrip_space s c : isspace c = true -> rstrip (s ++ [c]) = rstrip s.
Proof.
  intros H. unfold rstrip. rewrite rev_app_distr. cbn [rev app lstrip].
  now rewrite H.
Qed.

Lemma strip_head s c t : strip s = c :: t -> isspace c = false.
Proof.
  unfold strip. intros H. destruct (rstrip_prefix (lstrip s)) as [b E].
  rewrite H in E. cbn [app] in E. eapply lstrip_head, E.
Qed.

Lemma strip_last s t c : strip s = t ++ [c] -> isspace c = false.
Proof. unfold strip. apply rstrip_last. Qed.

Lemma strip_incl s c : In c (strip s) -> In c s.
Proof.
  unfold strip. intros H.
  destruct (rstrip_prefix (lstrip s)) as [b E]. destruct (lstrip_suffix s) as [a E2].
  rewrite E2, E. apply in_or_app. right. apply in_or_app. now left.
Qed.

Lemma readlines_shape text line :
  In line (readlines text) ->
  exists body, ~ In newline body /\ (line = body ++ [newline] \/ line = body).
Proof.
  revert line. induction text as [|c t IH]; intros line H; [destruct H|].
  cbn [readlines] in H. destruct (N.eqb_spec c newline) as [->|Hc].
  - destruct H as [<- | H]; [| now apply IH].
    exists []. split; [intros [] | now left].
  - destruct (readlines t) as [|l ls] eqn:E.
    + destruct H as [<- | []]. exists [c]. split; [| now right].
      intros [H | []]. congruence.
    + destruct H as [<- | H]; [| apply IH; now right].
      destruct (IH l (or_introl eq_refl)) as [body [Hb Hl]].
      exists (c :: body). split.
      * intros [H | H]; [congruence | now apply Hb].
      * destruct Hl as [-> | ->]; [now left | now right].
Qed.

(** The stripped line holds no line end. *)
Lemma strip_line_no_newline text line :
  In line (readlines text) -> ~ In newline (strip line).
Proof.
  intros H Hin. destruct (readlines_shape text line H) as [body [Hb [-> | ->]]].
  - unfold strip in Hin.
    destruct (lstrip_suffix (body ++ [newline])) as [a E].
    destruct (lstrip (body ++ [newline])) as [|x l] eqn:El using rev_ind;
      [destruct Hin|].
    clear IHl. rewrite app_assoc in E. apply app_inj_tail in E as [E Ex]. subst x.
    rewrite rstrip_space in Hin by reflexivity.
    destruct (rstrip_prefix l) as [b E2]. apply Hb. rewrite E.
    apply in_or_app. right. rewrite E2. apply in_or_app. now left.
  - now apply Hb, strip_incl.
Qed.

(** *** Slices *)

Lemma slice_from_app a t : slice_from (a ++ t) (Z.of_nat (length a)) = t.
Proof.
  unfold slice_from, clip_index. rewrite length_app.
  destruct (Z.ltb_spec (Z.of_nat (length a)) 0); [lia|].
  replace (Z.to_nat _) with (length a) by lia.
  rewrite skipn_app, skipn_all, Nat.sub_diag. reflexivity.
Qed.

Lemma slice_to_last body c : slice_to (body ++ [c]) (-1) = body.
Proof.
  unfold slice_to, clip_index. rewrite length_app. cbn [length Z.ltb Z.compare].
  replace (Z.to_nat _) with (length body) by lia.
  rewrite firstn_app, firstn_all, Nat.sub_diag. cbn [firstn]. apply app_nil_r.
Qed.

(** *** One line *)

Lemma scan_line_absent p line :
  str_in p (strip line) = false -> scan_line p line = [].
Proof. unfold scan_line. cbv zeta. now intros ->. Qed.

Lemma scan_line_found p line :
  str_in p (strip line) = true ->
  exists before rest,
    strip line = before ++ p ++ rest /\
    (forall k, k < length before -> startswith p (skipn k (strip line)) = false) /\
    ((endswith [dquote] (p ++ rest) = false /\ scan_line p line = [p ++ rest]) \/
     (exists body, p ++ rest = body ++ [dquote] /\ scan_line p line = [body])).
Proof.
  intros H. destruct (str_find_spec p (strip line) H) as [a [b [Es [Ef Hk]]]].
  exists a, b. split; [exact Es|]. split; [exact Hk|].
  unfold scan_line. cbv zeta. rewrite H, Ef.
  rewrite Es, slice_from_app.
  destruct (endswith [dquote] (p ++ b)) eqn:E.
  - right. apply endswith_true in E as [body E]. exists body. split; [exact E|].
    rewrite E at 1. now rewrite slice_to_last.
  - left. now split.
Qed.

Lemma scan_line_length p line : length (scan_line p line) <= 1.
Proof.
  unfold scan_line. cbv zeta. destruct (str_in p (strip line)); simpl; lia.
Qed.

Lemma scan_lines_length p lines : length (scan_lines p lines) <= length lines.
Proof.
  unfold scan_lines. induction lines as [|l ls IH]; [simpl; lia|].
  cbn [flat_map]. rewrite length_app. pose proof (scan_line_length p l).
  simpl length. lia.
Qed.

Lemma scan_lines_absent p lines :
  (forall line, In line lines -> str_in p (strip line) = false) ->
  scan_lines p lines = [].
Proof.
  unfold scan_lines. induction lines as [|l ls IH]; intros H; [reflexivity|].
  cbn [flat_map]. rewrite scan_line_absent by (apply H; now left).
  apply IH. intros line Hl. apply H. now right.
Qed.

(** A reference of a line is the text of the stripped line from the
    prefix on, less a quote at its end. *)
Lemma scan_line_In p line ref :
  In ref (scan_line p line) ->
  exists before rest q,
    strip line = before ++ p ++ rest /\ p ++ rest = ref ++ q /\
    (q = [] \/ q = [dquote]) /\
    (forall k, k < length before -> startswith p (skipn k (strip line)) = false).
Proof.
  intros H. destruct (str_in p (strip line)) eqn:E.
  - destruct (scan_line_found p line E)
      as [a [b [Es [Hk [[Hq Hs] | [body [Hb Hs]]]]]]];
      rewrite Hs in H; destruct H as [<- | []].
    + exists a, b, []. rewrite app_nil_r. repeat split; auto.
    + exists a, b, [dquote]. repeat split; auto.
  - rewrite scan_line_absent in H by assumption. destruct H.
Qed.

Lemma scan_line_startswith p line ref :
  endswith [dquote] p = false -> In ref (scan_line p line) ->
  startswith p ref = true.
Proof.
  intros Hp H. destruct (scan_line_In p line ref H)
    as [a [b [q [_ [E [[-> | ->] _]]]]]].
  - rewrite app_nil_r in E. rewrite <- E. apply startswith_app.
  - destruct b as [|x b _] using rev_ind.
    + rewrite app_nil_r in E. subst p. now rewrite endswith_app in Hp.
    + rewrite app_assoc in E. apply app_inj_tail in E as [<- _].
      apply startswith_app.
Qed.

Lemma scan_line_no_newline text p line ref :
  In line (readlines text) -> In ref (scan_line p line) -> ~ In newline ref.
Proof.
  intros Hl H Hin. destruct (scan_line_In p line ref H) as [a [b [q [Es [E _]]]]].
  apply (strip_line_no_newline text line Hl). rewrite Es, E.
  apply in_or_app. right. apply in_or_app. now left.
Qed.

Lemma In_scan_lines p lines ref :
  In ref (scan_lines p lines) <->
  exists line, In line lines /\ In ref (scan_line p line).
Proof. unfold scan_lines. apply in_flat_map. Qed.

Lemma In_working_set text ref :
  In ref (working_set text) <->
  exists p line,
    In p IMAGE_PREFIXES /\ In line (readlines text) /\ In ref (scan_line p line).
Proof.
  unfold working_set, collect_images_text. rewrite in_flat_map. split.
  - intros [p [Hp H]]. apply In_dedupe, In_scan_lines in H as [line [Hl H]].
    now exists p, line.
  - intros [p [line [Hp [Hl H]]]]. exists p. split; [exact Hp|].
    apply In_dedupe, In_scan_lines. now exists line.
Qed.

(** *** The configured prefixes *)

Lemma prefixes_no_quote p : In p IMAGE_PREFIXES -> endswith [dquote] p = false.
Proof.
  assert (forallb (fun p => negb (endswith [dquote] p)) IMAGE_PREFIXES = true) as H
    by (vm_compute; reflexivity).
  rewrite forallb_forall in H. intros Hp. apply H in Hp. now apply negb_true_iff.
Qed.

Lemma prefixes_apart p p' :
  In p IMAGE_PREFIXES -> In p' IMAGE_PREFIXES -> startswith p p' = true -> p = p'.
Proof.
  assert (forallb (fun p => forallb (fun p' =>
            implb (startswith p p') (str_eqb p p')) IMAGE_PREFIXES)
            IMAGE_PREFIXES = true) as H by (vm_compute; reflexivity).
  rewrite forallb_forall in H. intros Hp Hp' Hs.
  specialize (H p Hp). rewrite forallb_forall in H. specialize (H p' Hp').
  rewrite Hs in H. now apply str_eqb_eq.
Qed.

Lemma prefixes_head p : In p IMAGE_PREFIXES -> exists c t, p = c :: t /\ isspace c = false.
Proof.
  intros [<- | [<- | [<- | []]]]; eexists; eexists; split;
    try (vm_compute; reflexivity); reflexivity.
Qed.

(** * Digests and the image map *)

Lemma str_split_at_free d : at_free d -> str_split at_sign d = [d].
Proof.
  unfold at_free. induction d as [|c d IH]; intros H; [reflexivity|].
  cbn [existsb] in H. apply orb_false_iff in H as [Hc Hd].
  cbn [str_split]. rewrite N.eqb_sym, Hc, (IH Hd). reflexivity.
Qed.

Lemma str_split_pinned name d :
  at_free name ->
  str_split at_sign (name ++ at_sign :: d) = name :: str_split at_sign d.
Proof.
  unfold at_free. induction name as [|c name IH]; intros H.
  - cbn [app str_split]. now rewrite N.eqb_refl.
  - cbn [existsb] in H. apply orb_false_iff in H as [Hc Hn].
    cbn [app str_split]. rewrite N.eqb_sym, Hc, (IH Hn). reflexivity.
Qed.

Lemma sha256_chars d c :
  is_sha256_digest d -> In c d -> is_hex c = true \/ In c (lit "sha256:").
Proof.
  unfold is_sha256_digest. intros H Hin.
  apply andb_true_iff in H as [H1 H2].
  apply startswith_true in H1 as [t ->].
  change (skipn 7 (lit "sha256:" ++ t)) with t in H2.
  apply in_app_or in Hin as [Hin | Hin]; [now right | left].
  rewrite forallb_forall in H2. now apply H2.
Qed.

Lemma sha256_lacks d c :
  is_sha256_digest d -> is_hex c = false -> ~ In c (lit "sha256:") -> ~ In c d.
Proof.
  intros Hd Hh Hl Hin. destruct (sha256_chars d c Hd Hin); [congruence | auto].
Qed.

Lemma not_in_sha256_lit c :
  existsb (N.eqb c) (lit "sha256:") = false -> ~ In c (lit "sha256:").
Proof.
  intros H Hin.
  assert (existsb (N.eqb c) (lit "sha256:") = true) as E.
  { apply existsb_exists. exists c. split; [exact Hin | apply N.eqb_refl]. }
  congruence.
Qed.

Lemma sha256_at_free d : is_sha256_digest d -> at_free d.
Proof.
  intros Hd. unfold at_free.
  destruct (existsb (N.eqb at_sign) d) eqn:E; [| reflexivity].
  apply existsb_exists in E as [c [Hin Hc]]. apply N.eqb_eq in Hc. subst c.
  exfalso. revert Hin. apply sha256_lacks; [exact Hd | reflexivity |].
  apply not_in_sha256_lit. reflexivity.
Qed.

Lemma sha256_plain d : is_sha256_digest d -> plain d.
Proof.
  intros Hd. unfold plain. apply forallb_forall. intros c Hin.
  apply negb_true_iff. destruct (is_delim c) eqn:E; [| reflexivity].
  exfalso. revert Hin.
  destruct (delim_cases c E) as [-> | ->];
    (apply sha256_lacks; [exact Hd | reflexivity |]);
    apply not_in_sha256_lit; reflexivity.
Qed.

(** A reference with a configured prefix holds a dot; a digest holds none. *)
Lemma configured_prefix_dot r : has_configured_prefix r -> In 46%N r.
Proof.
  unfold has_configured_prefix. intros H.
  apply existsb_exists in H as [p [Hp Hs]].
  apply startswith_true in Hs as [t ->]. apply in_or_app. left.
  assert (forallb (fun p => existsb (N.eqb 46) p) IMAGE_PREFIXES = true) as Hall
    by (vm_compute; reflexivity).
  rewrite forallb_forall in Hall. specialize (Hall p Hp).
  apply existsb_exists in Hall as [c [Hc Heq]]. apply N.eqb_eq in Heq. now subst.
Qed.

Lemma configured_not_in_digest r d :
  has_configured_prefix r -> is_sha256_digest d -> endswith r d = false.
Proof.
  intros Hr Hd. destruct (endswith r d) eqn:E; [| reflexivity].
  apply endswith_true in E as [t ->]. exfalso.
  assert (In 46%N (t ++ r)) as Hin
    by (apply in_or_app; right; now apply configured_prefix_dot).
  revert Hin. apply sha256_lacks; [exact Hd | reflexivity |].
  apply not_in_sha256_lit. reflexivity.
Qed.

Lemma dict_get_set_same k v d : dict_get k (dict_set k v d) = Some v.
Proof.
  induction d as [|[k' v'] d IH]; cbn [dict_set dict_get].
  - destruct (str_eq_dec k k); congruence.
  - destruct (str_eq_dec k k') as [->|Hn]; cbn [dict_get].
    + destruct (str_eq_dec k' k'); congruence.
    + destruct (str_eq_dec k k'); congruence.
Qed.

Lemma dict_get_set_other k k' v d :
  k <> k' -> dict_get k (dict_set k' v d) = dict_get k d.
Proof.
  intros Hn. induction d as [|[k0 v0] d IH]; cbn [dict_set dict_get].
  - destruct (str_eq_dec k k'); congruence.
  - destruct (str_eq_dec k' k0) as [->|Hn0]; cbn [dict_get].
    + destruct (str_eq_dec k k0); congruence.
    + destruct (str_eq_dec k k0); congruence.
Qed.

Section PipelineFacts.

Variable Store : Type.
Variable client : DockerClient Store.

Lemma collect_images_ok repo p (w : World Store) text :
  fs w (path_join repo CSV_FILE_NAME) = Some text ->
  collect_images repo p w = (Ok (collect_images_text text p), w).
Proof.
  intros H. unfold collect_images, bind, read_file. cbv zeta. now rewrite H.
Qed.

Lemma collect_images_world repo p (w : World Store) :
  snd (collect_images repo p w) = w.
Proof.
  unfold collect_images, bind, read_file. cbv zeta.
  now destruct (fs w (path_join repo CSV_FILE_NAME)).
Qed.

Lemma collect_all_ok repo ps (w : World Store) text :
  fs w (path_join repo CSV_FILE_NAME) = Some text ->
  collect_all repo ps w = (Ok (flat_map (collect_images_text text) ps), w).
Proof.
  intros H. induction ps as [|p ps IH]; [reflexivity|].
  cbn [collect_all flat_map]. unfold bind at 1.
  rewrite (collect_images_ok repo p w text H). unfold bind. now rewrite IH.
Qed.

Lemma collect_all_world repo ps (w : World Store) :
  snd (collect_all repo ps w) = w.
Proof.
  induction ps as [|p ps IH]; [reflexivity|].
  cbn [collect_all]. unfold bind at 1.
  pose proof (collect_images_world repo p w) as Hw.
  destruct (collect_images repo p w) as [[found | e] w0]; cbn [snd] in Hw; subst w0;
    [| reflexivity].
  unfold bind. destruct (collect_all repo ps w) as [[more | e] w1];
    cbn [snd] in IH; now subst w1.
Qed.

Lemma pull_images_fs images (w : World Store) :
  fs (snd (pull_images images client w)) = fs w.
Proof.
  revert w. induction images as [|img rest IH]; intros w; [reflexivity|].
  cbn [pull_images]. unfold bind.
  destruct (api_pull client img (store w)) as [st|]; [| reflexivity].
  now rewrite IH.
Qed.

Lemma image_digest_world r (w : World Store) : snd (image_digest r client w) = w.
Proof.
  unfold image_digest. destruct (images_get client r (store w)) as [[|e l]|];
    try reflexivity.
  destruct (str_split at_sign e) as [|a [|b l']]; reflexivity.
Qed.

Lemma image_digest_ok ref name digest rest (w : World Store) :
  images_get client ref (store w) = Some ((name ++ at_sign :: digest) :: rest) ->
  at_free name -> at_free digest ->
  image_digest ref client w = (Ok digest, w).
Proof.
  intros H Hn Hd. unfold image_digest.
  now rewrite H, str_split_pinned, str_split_at_free.
Qed.

Lemma image_map_loop_world images acc (w : World Store) :
  snd (image_map_loop images client acc w) = w.
Proof.
  revert acc. induction images as [|r rest IH]; intros acc; [reflexivity|].
  cbn [image_map_loop]. unfold bind.
  pose proof (image_digest_world r w) as Hw.
  destruct (image_digest r client w) as [[dg | e] w0]; cbn [snd] in Hw; subst w0;
    [apply IH | reflexivity].
Qed.

(** The map that the loop returns holds, for every image of the loop, the
    digest that [image_digest] gives for it. *)
Lemma image_map_loop_spec images acc (w w' : World Store) m :
  image_map_loop images client acc w = (Ok m, w') ->
  (forall r dg, In r images -> image_digest r client w = (Ok dg, w) ->
                dict_get r m = Some dg) /\
  (forall r, ~ In r images -> dict_get r m = dict_get r acc).
Proof.
  revert acc. induction images as [|i rest IH]; intros acc H.
  - cbn [image_map_loop] in H. unfold ret in H. inversion H. subst.
    split; [intros r dg [] | reflexivity].
  - cbn [image_map_loop] in H. unfold bind in H.
    pose proof (image_digest_world i w) as Hw.
    destruct (image_digest i client w) as [[dgi | e] w0] eqn:Ei;
      cbn [snd] in Hw; subst w0; [| discriminate].
    destruct (IH _ H) as [IH1 IH2]. split.
    + intros r dg Hin Hr.
      destruct (in_dec str_eq_dec r rest) as [Hrest | Hrest]; [now apply IH1|].
      destruct Hin as [<- | Hin]; [| contradiction].
      rewrite IH2 by assumption. rewrite Hr in Ei. inversion Ei. subst.
      apply dict_get_set_same.
    + intros r Hn. rewrite IH2 by (intros Hr; apply Hn; now right).
      apply dict_get_set_other. intros ->. apply Hn. now left.
Qed.

(** An image whose digest cannot be read makes the loop raise. *)
Lemma image_map_loop_raises images ref acc (w : World Store) :
  In ref images ->
  (forall w0, exists e, fst (image_digest ref client w0) = Raise e) ->
  exists e, image_map_loop images client acc w = (Raise e, w).
Proof.
  intros Hin Hbad. revert acc. induction images as [|i rest IH]; intros acc;
    [destruct Hin|].
  cbn [image_map_loop]. unfold bind.
  pose proof (image_digest_world i w) as Hw.
  destruct (image_digest i client w) as [[dgi | e] w0] eqn:Ei;
    cbn [snd] in Hw; subst w0; [| now exists e].
  destruct Hin as [-> | Hin]; [| now apply IH].
  destruct (Hbad w) as [e He]. rewrite Ei in He. discriminate.
Qed.

(** An image that cannot be pulled makes the pulls raise. *)
Lemma pull_images_raises images ref (w : World Store) :
  In ref images -> (forall st, api_pull client ref st = None) ->
  exists e w', pull_images images client w = (Raise e, w').
Proof.
  intros Hin Hbad. revert w. induction images as [|i rest IH]; intros w;
    [destruct Hin|].
  cbn [pull_images]. unfold bind.
  destruct (api_pull client i (store w)) as [st|] eqn:E.
  - destruct Hin as [-> | Hin]; [rewrite Hbad in E; discriminate|].
    now apply IH.
  - now exists DockerException, w.
Qed.

(** [execute] stops where the resolution stops, with the files as they
    were. *)
Lemma execute_resolution_raises repo target (w w1 w2 : World Store) images e :
  collect_all repo IMAGE_PREFIXES w = (Ok images, w1) ->
  resolve_all images client w1 = (Raise e, w2) ->
  execute client repo target w = (Raise e, w2) /\ fs w2 = fs w.
Proof.
  intros Hc Hr.
  pose proof (collect_all_world repo IMAGE_PREFIXES w) as Hw.
  rewrite Hc in Hw. cbn [snd] in Hw. subst w1.
  unfold execute. unfold bind at 1. rewrite Hc.
  unfold resolve_all in Hr. unfold bind in Hr |- *.
  pose proof (pull_images_fs images w) as Hfs.
  destruct (pull_images images client w) as [[[] | e1] w3]; cbn [snd] in Hfs.
  - pose proof (image_map_loop_world images [] w3) as Hw.
    unfold create_image_map in *.
    destruct (image_map_loop images client [] w3) as [[m | e2] w4];
      cbn [snd] in Hw; subst w4; [discriminate|].
    inversion Hr. subst. now split.
  - inversion Hr. subst. now split.
Qed.

End PipelineFacts.

(** * The statements of the specification *)

Lemma str_eqb_false_neq a b : str_eqb a b = false -> a <> b.
Proof. intros H E. apply str_eqb_eq in E. congruence. Qed.

Lemma replace_image_applied item t : item_applied item t (replace_image t item).
Proof.
  destruct item as [r d]. unfold item_applied, replace_image. cbn [fst snd].
  exists (str_replace (quoted r) (quoted (pinned r d)) t). split.
  - apply str_replace_all_replaced, quoted_nonempty.
  - apply str_replace_all_replaced, ended_nonempty.
Qed.

(** C1, as the code has it. The rewrite applies the items of the image
    map in their order, each to the text that the items before it have
    left. An item replaces the occurrences of its reference between double
    quotes by the reference, [@] and the digest between double quotes, and
    then the occurrences of its reference before a line end by the
    reference, [@] and the digest before that line end; the occurrences
    are those found from the left without overlap, no other shape is
    replaced, and the text between them is kept as it is. A line
    [value: "host/img-v1.0:a"] becomes
    [value: "host/img-v1.0:a@sha256:aaa"]. *)
Theorem rewrite_applies_items :
  (forall text img_map,
      items_applied img_map text (replace_images_text text img_map)) /\
  replace_images_text
    (lit "  - name: IMAGE" ++ [newline]
     ++ lit "    value: " ++ quoted (lit "host/img-v1.0:a") ++ [newline])
    [(lit "host/img-v1.0:a", lit "sha256:aaa")]
  = lit "  - name: IMAGE" ++ [newline]
    ++ lit "    value: " ++ quoted (lit "host/img-v1.0:a@sha256:aaa") ++ [newline].
Proof.
  split; [| vm_compute; reflexivity].
  intros text img_map. revert text. unfold replace_images_text.
  induction img_map as [|item m IH]; intros text; cbn [fold_left].
  - constructor.
  - econstructor; [apply replace_image_applied | apply IH].
Qed.

(** C1 fails as it is written, for every occurrence of every reference of
    the map. In the text of a reference between quotes twice with the
    middle quote shared, the second occurrence overlaps the first and is
    left as it was. And an item whose reference ends with the reference of
    an earlier item finds its occurrence before the line end already
    pinned by the earlier item, and is not applied to it. *)
Lemma rewrite_every_occurrence_counterexample :
  let text := shared_quote ex_mapping in
  let img_map := [(ex_mapping, ex_digest_a)] in
  let later := [(ex_release, ex_digest_a); (ex_release_twice, ex_digest_b)] in
  (text = quoted ex_mapping ++ ex_mapping ++ [dquote] /\
   text = dquote :: ex_mapping ++ quoted ex_mapping /\
   replace_images_text text img_map
   = quoted (pinned ex_mapping ex_digest_a) ++ ex_mapping ++ [dquote] /\
   replace_images_text text img_map
   <> quoted (pinned ex_mapping ex_digest_a)
      ++ pinned ex_mapping ex_digest_a ++ [dquote] /\
   replace_images_text text img_map
   <> dquote :: ex_mapping ++ quoted (pinned ex_mapping ex_digest_a)) /\
  (In (ex_release_twice, ex_digest_b) later /\
   str_in (ended ex_release_twice) ex_manifest_twice = true /\
   str_in (ended (pinned ex_release_twice ex_digest_b))
     (replace_images_text ex_manifest_twice later) = false /\
   replace_images_text ex_manifest_twice later
   = lit "    value: " ++ quoted (pinned ex_release ex_digest_a) ++ [newline]
     ++ lit "    image: " ++ ex_release ++ lit ":"
     ++ ended (pinned ex_release ex_digest_a)).
Proof.
  cbv zeta. split.
  - repeat split; try (vm_compute; reflexivity);
      apply str_eqb_false_neq; vm_compute; reflexivity.
  - split; [right; left; reflexivity |].
    repeat split; vm_compute; reflexivity.
Qed.

Lemma endswith_longer a b : length b < length a -> endswith a b = false.
Proof.
  intros H. destruct (endswith a b) eqn:E; [| reflexivity].
  apply endswith_length in E. lia.
Qed.

Lemma startswith_strict a b :
  startswith a b = true -> a <> b -> length a < length b.
Proof.
  intros H Hne. apply startswith_true in H as [t ->]. rewrite length_app.
  destruct t; [now rewrite app_nil_r in Hne | simpl; lia].
Qed.

Lemma length_pinned r d : length (pinned r d) = S (length r + length d).
Proof. unfold pinned. rewrite length_app. simpl. lia. Qed.

Lemma plain_pinned r d : plain r -> plain d -> plain (pinned r d).
Proof. intros Hr Hd. apply plain_app. split; [exact Hr | now apply plain_at_sign]. Qed.

Lemma keeps_anchored_other r d rstar :
  plain r -> plain d -> plain rstar -> rstar <> r ->
  endswith r rstar = false -> endswith rstar r = false ->
  keeps_anchored (r, d) rstar.
Proof.
  intros Hr Hd Hs Hne H1 H2. split; intros X Y.
  - unfold quoted. cbn [app]. rewrite <- app_assoc. cbn [app].
    now apply replace_image_other_quoted.
  - unfold ended. rewrite <- !app_assoc. cbn [app].
    now apply replace_image_other_line.
Qed.

Lemma pins_anchored_own r d : plain r -> plain d -> pins_anchored (r, d).
Proof.
  intros Hr Hd. split; intros X Y; cbn [fst snd].
  - intros Hend. unfold quoted, pinned. cbn [app]. rewrite <- !app_assoc. cbn [app].
    now apply replace_image_own_quoted.
  - unfold ended, pinned. rewrite <- !app_assoc. cbn [app].
    now apply replace_image_own_line.
Qed.

(** C2, as the code has it. Take two references without double quote, line
    end and [@], the first a strict prefix of the second and not also its
    end, and two digests without double quote and line end that neither
    reference ends. Then the item of each reference leaves every quoted
    occurrence and every occurrence before a line end of the other
    reference as it is, pinned or not, and pins every occurrence before a
    line end of its own reference, and every quoted occurrence of it whose
    first quote does not close an earlier quoted occurrence. *)
Theorem prefix_pair_anchored r1 d1 r2 d2 :
  plain r1 -> plain r2 -> at_free r1 -> at_free r2 ->
  plain d1 -> plain d2 ->
  startswith r1 r2 = true -> r1 <> r2 -> endswith r1 r2 = false ->
  endswith r1 d2 = false -> endswith r2 d1 = false ->
  keeps_anchored (r1, d1) r2 /\ keeps_anchored (r1, d1) (pinned r2 d2) /\
  keeps_anchored (r2, d2) r1 /\ keeps_anchored (r2, d2) (pinned r1 d1) /\
  pins_anchored (r1, d1) /\ pins_anchored (r2, d2).
Proof.
  intros P1 P2 F1 F2 Q1 Q2 Hpre Hne Hsuf Hd2 Hd1.
  pose proof (startswith_strict r1 r2 Hpre Hne) as Hlen.
  assert (forall r d r', length r' <= length r -> pinned r d <> r') as Hpin.
  { intros r d r' Hl E. apply (f_equal (@length char)) in E.
    rewrite length_pinned in E. lia. }
  split; [| split; [| split; [| split; [| split]]]].
  - apply keeps_anchored_other; auto.
    apply endswith_longer. lia.
  - apply keeps_anchored_other; auto using plain_pinned.
    + apply Hpin. lia.
    + unfold pinned. now apply endswith_pinned_false.
    + apply endswith_longer. rewrite length_pinned. lia.
  - apply keeps_anchored_other; auto.
    apply endswith_longer. lia.
  - apply keeps_anchored_other; auto using plain_pinned.
    + intros E. symmetry in E. revert E. now apply at_free_not_pinned.
    + unfold pinned. now apply endswith_pinned_false.
    + destruct (endswith (pinned r1 d1) r2) eqn:E; [| reflexivity].
      apply endswith_true in E as [t E]. exfalso. apply (at_free_In r2 F2).
      rewrite E. unfold pinned. apply in_or_app. right. apply in_or_app. right.
      now left.
  - now apply pins_anchored_own.
  - now apply pins_anchored_own.
Qed.

Lemma prefix_pair_anchored_witness :
  keeps_anchored (ex_mapping, ex_digest_a) ex_webhook /\
  keeps_anchored (ex_mapping, ex_digest_a) (pinned ex_webhook ex_digest_b) /\
  keeps_anchored (ex_webhook, ex_digest_b) ex_mapping /\
  keeps_anchored (ex_webhook, ex_digest_b) (pinned ex_mapping ex_digest_a) /\
  pins_anchored (ex_mapping, ex_digest_a) /\ pins_anchored (ex_webhook, ex_digest_b).
Proof.
  apply prefix_pair_anchored; try (vm_compute; reflexivity).
  apply str_eqb_false_neq. vm_compute. reflexivity.
Defined.

(** The two names of the comment in [replace_images], in a manifest, with
    the items in both orders. *)
Example prefix_pair_example :
  let pinned_manifest :=
    lit "    value: " ++ quoted (pinned ex_webhook ex_digest_b) ++ [newline]
    ++ lit "    image: " ++ ended (pinned ex_mapping ex_digest_a) in
  replace_images_text ex_manifest
    [(ex_mapping, ex_digest_a); (ex_webhook, ex_digest_b)] = pinned_manifest /\
  replace_images_text ex_manifest
    [(ex_webhook, ex_digest_b); (ex_mapping, ex_digest_a)] = pinned_manifest.
Proof. split; vm_compute; reflexivity. Qed.

(** C2 fails as it is written: [ex_release] is a strict prefix of
    [ex_release_twice] and also ends it. Both are references of the working
    set of [ex_manifest_twice], and the item of the shorter one pins the
    occurrence of the longer one before the line end to the digest of the
    shorter one. *)
Lemma prefix_pair_counterexample :
  startswith ex_release ex_release_twice = true /\
  ex_release <> ex_release_twice /\
  working_set ex_manifest_twice = [ex_release; ex_release_twice] /\
  replace_images_text ex_manifest_twice
    [(ex_release, ex_digest_a); (ex_release_twice, ex_digest_b)]
  = lit "    value: " ++ quoted (pinned ex_release ex_digest_a) ++ [newline]
    ++ lit "    image: " ++ ended (pinned ex_release_twice ex_digest_a) /\
  ~ keeps_ended (ex_release, ex_digest_a) ex_release_twice.
Proof.
  split; [vm_compute; reflexivity|].
  split; [apply str_eqb_false_neq; vm_compute; reflexivity|].
  split; [vm_compute; reflexivity|].
  split; [vm_compute; reflexivity|].
  intros H. specialize (H (lit "image: ") []).
  vm_compute in H. discriminate H.
Qed.

(** C3. When the resolution of the collected references ends by an
    exception, in a pull or in [create_image_map], [execute] ends by that
    exception and leaves every file as it was; this is so as soon as one
    collected reference cannot be pulled or has no digest to read. *)
Theorem resolution_failure_keeps_files (Store : Type)
  (client : DockerClient Store) repo target (w w1 : World Store) images :
  collect_all repo IMAGE_PREFIXES w = (Ok images, w1) ->
  (forall e w2,
      resolve_all images client w1 = (Raise e, w2) ->
      execute client repo target w = (Raise e, w2) /\ fs w2 = fs w) /\
  (forall ref,
      In ref images ->
      (forall st, api_pull client ref st = None) \/
      (forall w0, exists e, fst (image_digest ref client w0) = Raise e) ->
      exists e w2, execute client repo target w = (Raise e, w2) /\ fs w2 = fs w).
Proof.
  intros Hc. split.
  - intros e w2 Hr. eapply execute_resolution_raises; eassumption.
  - intros ref Hin Hbad.
    assert (exists e w2, resolve_all images client w1 = (Raise e, w2)) as [e [w2 Hr]].
    { unfold resolve_all, bind. destruct Hbad as [Hp | Hd].
      - destruct (pull_images_raises Store client images ref w1 Hin Hp) as [e [w' ->]].
        now exists e, w'.
      - destruct (pull_images images client w1) as [[[] | e] w3].
        + destruct (image_map_loop_raises Store client images ref [] w3 Hin Hd) as [e He].
          unfold create_image_map. rewrite He. now exists e, w3.
        + now exists e, w3. }
    exists e, w2. eapply execute_resolution_raises; eassumption.
Qed.

Lemma resolution_failure_keeps_files_witness :
  exists e w2,
    execute ex_client ex_repo (lit "quay.io/aliok/serverless-operator-index:t") ex_world
    = (Raise e, w2) /\ fs w2 = fs ex_world.
Proof.
  assert (collect_all ex_repo IMAGE_PREFIXES ex_world
          = (Ok [ex_mapping; ex_webhook], ex_world)) as Hc
    by (vm_compute; reflexivity).
  apply (proj2 (resolution_failure_keeps_files (list str) ex_client ex_repo
                  (lit "quay.io/aliok/serverless-operator-index:t")
                  ex_world ex_world [ex_mapping; ex_webhook] Hc) ex_webhook).
  - right. left. reflexivity.
  - left. intros st. vm_compute. reflexivity.
Defined.

(** C9, as the code has it. When the store lists digests for a reference
    and the first of the list is a name without [@], [@] and a digest
    [sha256:] with hexadecimal digits, the digest that [create_image_map]
    takes for the reference is the digest of that first entry alone,
    whatever the entries after it: the loop body returns it, and every
    image map that [create_image_map] returns for images with the
    reference among them holds it for the reference. *)
Theorem first_recorded_digest (Store : Type) (client : DockerClient Store)
  ref name digest rest (w : World Store) :
  images_get client ref (store w) = Some (pinned name digest :: rest) ->
  at_free name -> is_sha256_digest digest ->
  image_digest ref client w = (Ok digest, w) /\
  create_image_map [ref] client w = (Ok [(ref, digest)], w) /\
  forall images m w',
    In ref images -> create_image_map images client w = (Ok m, w') ->
    dict_get ref m = Some digest.
Proof.
  intros Hg Hn Hd.
  assert (image_digest ref client w = (Ok digest, w)) as Hi.
  { eapply image_digest_ok; [exact Hg | exact Hn | now apply sha256_at_free]. }
  split; [exact Hi|]. split.
  - unfold create_image_map. cbn [image_map_loop]. unfold bind. now rewrite Hi.
  - intros images m w' Hin Hm. unfold create_image_map in Hm.
    destruct (image_map_loop_spec Store client images [] w w' m Hm) as [H _].
    now apply H.
Qed.

Lemma first_recorded_digest_witness :
  let w := {| fs := fs ex_world; store := [ex_webhook; ex_mapping] |} in
  image_digest ex_mapping ex_client w = (Ok ex_digest_a, w) /\
  create_image_map [ex_mapping] ex_client w = (Ok [(ex_mapping, ex_digest_a)], w) /\
  forall images m w',
    In ex_mapping images -> create_image_map images ex_client w = (Ok m, w') ->
    dict_get ex_mapping m = Some ex_digest_a.
Proof.
  intros w.
  apply (first_recorded_digest (list str) ex_client ex_mapping ex_mapping ex_digest_a
           [pinned ex_mapping ex_digest_b] w); vm_compute; reflexivity.
Defined.

(** C9 fails as it is written, for the digest recorded last: the digest
    taken is the one listed first. A store that lists its digests in the
    order in which it recorded them gives the one recorded first, and the
    same two digests listed in the other order give the other one. *)
Lemma first_listed_not_latest_counterexample :
  let records := [(1, pinned ex_mapping ex_digest_a);
                  (2, pinned ex_mapping ex_digest_b)] in
  let w := {| fs := fs ex_world; store := [ex_mapping] |} in
  let backwards :=
    {| api_pull := api_pull ex_client;
       images_get := fun img st =>
         option_map (@rev str) (images_get ex_client img st);
       api_build := api_build ex_client |} in
  images_get ex_client ex_mapping (store w) = Some (map snd records) /\
  latest_recorded records = Some (2, pinned ex_mapping ex_digest_b) /\
  image_digest ex_mapping ex_client w = (Ok ex_digest_a, w) /\
  create_image_map [ex_mapping] ex_client w
  = (Ok [(ex_mapping, ex_digest_a)], w) /\
  ex_digest_a <> ex_digest_b /\
  images_get backwards ex_mapping (store w) = Some (rev (map snd records)) /\
  image_digest ex_mapping backwards w = (Ok ex_digest_b, w).
Proof.
  cbv zeta. repeat split; try (vm_compute; reflexivity).
  apply str_eqb_false_neq. vm_compute. reflexivity.
Qed.

(** C4, as the code has it. The scan takes the lines in their order and
    strips each of them of the white space at both ends. A stripped line
    without the prefix gives nothing. A stripped line with the prefix gives
    one reference: the text of the stripped line from the first occurrence
    of the prefix on, less one double quote when it ends with one. So there
    is at most one reference for a line, and when no line holds the prefix
    the result is the empty list. *)
Theorem scan_stripped_lines image_prefix text :
  length (scan_lines image_prefix (readlines text)) <= length (readlines text) /\
  (forall ls1 ls2,
      scan_lines image_prefix (ls1 ++ ls2)
      = scan_lines image_prefix ls1 ++ scan_lines image_prefix ls2) /\
  (forall line,
      str_in image_prefix (strip line) = false -> scan_line image_prefix line = []) /\
  (forall line,
      str_in image_prefix (strip line) = true ->
      exists before rest,
        strip line = before ++ image_prefix ++ rest /\
        (forall k, k < length before ->
                   startswith image_prefix (skipn k (strip line)) = false) /\
        ((endswith [dquote] (image_prefix ++ rest) = false /\
          scan_line image_prefix line = [image_prefix ++ rest]) \/
         (exists body, image_prefix ++ rest = body ++ [dquote] /\
                       scan_line image_prefix line = [body]))) /\
  ((forall line, In line (readlines text) ->
                 str_in image_prefix (strip line) = false) ->
   scan_lines image_prefix (readlines text) = [] /\
   collect_images_text text image_prefix = []).
Proof.
  split; [apply scan_lines_length|].
  split; [intros ls1 ls2; apply flat_map_app|].
  split; [apply scan_line_absent|].
  split; [apply scan_line_found|].
  intros H. unfold collect_images_text.
  rewrite (scan_lines_absent _ _ H). split; reflexivity.
Qed.

Lemma scan_stripped_lines_witness :
  let text := lit "metadata:" ++ [newline] ++ lit "  name: serverless-operator" in
  scan_lines (lit "registry.ci.openshift.org/knative/release-") (readlines text) = [] /\
  collect_images_text text (lit "registry.ci.openshift.org/knative/release-") = [].
Proof.
  intros text.
  apply (scan_stripped_lines (lit "registry.ci.openshift.org/knative/release-") text).
  intros line H. vm_compute in H.
  destruct H as [<- | [<- | []]]; vm_compute; reflexivity.
Defined.

(** C4 fails as it is written: a line that ends with two spaces holds the
    prefix, the rest of the line from the prefix on ends with the two
    spaces and with no double quote, and the scan gives the reference
    without them. *)
Lemma scan_line_remainder_counterexample :
  let image_prefix := lit "registry.ci.openshift.org/openshift/knative-" in
  let line := lit "    image: " ++ ex_mapping ++ lit "  " in
  readlines line = [line] /\
  str_in image_prefix line = true /\
  slice_from line (str_find image_prefix line) = ex_mapping ++ lit "  " /\
  endswith [dquote] (ex_mapping ++ lit "  ") = false /\
  scan_lines image_prefix (readlines line) = [ex_mapping] /\
  scan_lines image_prefix (readlines line) <> [ex_mapping ++ lit "  "].
Proof.
  intros image_prefix line.
  repeat (split; [vm_compute; reflexivity|]).
  intros H. vm_compute in H. discriminate H.
Qed.

(** C5. The de-duplication gives a list without duplicates, strictly
    ascending in the lexicographic order of the code points, with the
    elements of its input; two inputs with the same elements give the same
    list, and so does the sort of any enumeration of these elements
    without repetition. *)
Theorem dedupe_sorted_set refs :
  NoDup (dedupe refs) /\
  StronglySorted str_lt (dedupe refs) /\
  (forall x, In x (dedupe refs) <-> In x refs) /\
  (forall refs', (forall x, In x refs <-> In x refs') -> dedupe refs' = dedupe refs) /\
  (forall enum, NoDup enum -> (forall x, In x enum <-> In x refs) ->
                sorted enum = dedupe refs).
Proof.
  split; [apply strict_NoDup, dedupe_strict|].
  split; [apply dedupe_strict|].
  split; [intros x; apply In_dedupe|].
  split.
  - intros refs' H. apply strict_unique; try apply dedupe_strict.
    intros x. rewrite !In_dedupe. symmetry. apply H.
  - intros enum Hn H. apply strict_unique;
      [now apply sorted_strict | apply dedupe_strict |].
    intros x. rewrite In_sorted, In_dedupe. apply H.
Qed.

Lemma dedupe_sorted_set_witness :
  dedupe [ex_webhook; ex_mapping; ex_webhook] = [ex_mapping; ex_webhook] /\
  dedupe [ex_mapping; ex_webhook; ex_mapping; ex_mapping]
  = dedupe [ex_webhook; ex_mapping; ex_webhook] /\
  sorted [ex_webhook; ex_mapping] = dedupe [ex_webhook; ex_mapping; ex_webhook].
Proof.
  destruct (dedupe_sorted_set [ex_webhook; ex_mapping; ex_webhook])
    as [_ [_ [_ [H1 H2]]]].
  split; [vm_compute; reflexivity|]. split.
  - apply H1. intros x. simpl. tauto.
  - apply H2.
    + constructor; [| constructor; [intros [] | constructor]].
      intros [H | []]. revert H. apply str_eqb_false_neq. vm_compute. reflexivity.
    + intros x. simpl. tauto.
Defined.

(** The images that [execute] collects are the working set of the text of
    the manifest. *)
Lemma collect_all_working_set (Store : Type) repo (w : World Store) text :
  fs w (path_join repo CSV_FILE_NAME) = Some text ->
  collect_all repo IMAGE_PREFIXES w = (Ok (working_set text), w).
Proof. apply collect_all_ok. Qed.

(** C8, as the code has it. Every reference of the working set starts with
    one configured prefix and with no other, holds no line end and does not
    start with white space. *)
Theorem working_set_prefixed text ref :
  In ref (working_set text) ->
  (exists p, In p IMAGE_PREFIXES /\ startswith p ref = true /\
             forall p', In p' IMAGE_PREFIXES -> startswith p' ref = true -> p' = p) /\
  ~ In newline ref /\
  (forall c t, ref = c :: t -> isspace c = false).
Proof.
  intros H. apply In_working_set in H as [p [line [Hp [Hl H]]]].
  pose proof (scan_line_startswith p line ref (prefixes_no_quote p Hp) H) as Hs.
  split; [| split].
  - exists p. repeat split; try assumption.
    intros p' Hp' Hs'.
    destruct (startswith_total _ _ _ Hs Hs') as [E | E].
    + symmetry. now apply prefixes_apart.
    + now apply prefixes_apart.
  - eapply scan_line_no_newline; eassumption.
  - intros c t ->. destruct (prefixes_head p Hp) as [c0 [t0 [-> Hc]]].
    cbn [startswith] in Hs. apply andb_true_iff in Hs as [Hs _].
    apply N.eqb_eq in Hs. now subst c0.
Qed.

Lemma working_set_prefixed_witness :
  (exists p, In p IMAGE_PREFIXES /\ startswith p ex_webhook = true /\
             forall p', In p' IMAGE_PREFIXES -> startswith p' ex_webhook = true ->
                        p' = p) /\
  ~ In newline ex_webhook /\
  (forall c t, ex_webhook = c :: t -> isspace c = false).
Proof.
  apply (working_set_prefixed ex_manifest ex_webhook).
  vm_compute. right. left. reflexivity.
Defined.

(** C8 fails as it is written: a reference of the working set can hold
    white space after the image name, and can end with a double quote. *)
Lemma working_set_counterexample :
  let spaced := ex_mapping ++ lit " # pinned by the build" in
  let twice_quoted := ex_mapping ++ [dquote] in
  In spaced (working_set (lit "    image: " ++ spaced ++ [newline])) /\
  existsb isspace spaced = true /\
  In twice_quoted
     (working_set (lit "    value: " ++ quoted ex_mapping ++ [dquote; newline])) /\
  endswith [dquote] twice_quoted = true.
Proof.
  intros spaced twice_quoted.
  split; [vm_compute; left; reflexivity|].
  split; [vm_compute; reflexivity|].
  split; [vm_compute; left; reflexivity|].
  vm_compute; reflexivity.
Qed.

(** C10, as the code has it. A reference of the scan comes from a line
    stripped of the white space at both ends: it is the text of the
    stripped line from the first occurrence of the prefix on, or that text
    less the double quote at its end. It holds no line end; it does not
    start with white space unless the prefix does; and it does not end
    with white space unless a double quote has been taken from its end. *)
Theorem scan_strips_lines image_prefix text ref :
  In ref (scan_lines image_prefix (readlines text)) ->
  ~ In newline ref /\
  (match image_prefix with
   | [] => True
   | c0 :: _ => isspace c0 = false
   end -> forall c t, ref = c :: t -> isspace c = false) /\
  exists line before rest q,
    In line (readlines text) /\
    strip line = before ++ image_prefix ++ rest /\
    image_prefix ++ rest = ref ++ q /\
    (q = [] /\ (forall body c, ref = body ++ [c] -> isspace c = false)
     \/ q = [dquote]).
Proof.
  intros H. apply In_scan_lines in H as [line [Hl H]].
  split; [eapply scan_line_no_newline; eassumption|].
  destruct (scan_line_In image_prefix line ref H) as [a [b [q [Es [E [Hq Hk]]]]]].
  split.
  - intros Hp c t ->. destruct image_prefix as [|c0 p'].
    + destruct a as [|x a].
      * cbn [app] in Es, E. rewrite E in Es. cbn [app] in Es.
        eapply strip_head, Es.
      * specialize (Hk 0 (Nat.lt_0_succ _)). discriminate Hk.
    + cbn [app] in E. inversion E. now subst.
  - exists line, a, b, q. repeat split; try assumption.
    destruct Hq as [-> | ->]; [left | now right].
    split; [reflexivity|]. intros body c ->.
    rewrite app_nil_r in E. rewrite E, app_assoc in Es.
    eapply strip_last, Es.
Qed.

Lemma scan_strips_lines_witness :
  let image_prefix := lit "registry.ci.openshift.org/openshift/knative-" in
  ~ In newline ex_mapping /\
  (forall c t, ex_mapping = c :: t -> isspace c = false).
Proof.
  intros image_prefix.
  destruct (scan_strips_lines image_prefix ex_manifest ex_mapping) as [H1 [H2 _]].
  - vm_compute. right. left. reflexivity.
  - split; [exact H1 | apply H2; vm_compute; reflexivity].
Defined.

(** C10 fails as it is written: on a line that ends with a space and a
    double quote the scan takes the double quote away and keeps the space
    at the end of the reference. *)
Lemma scan_trailing_space_counterexample :
  let image_prefix := lit "registry.ci.openshift.org/openshift/knative-" in
  let text := lit "    value: " ++ [dquote] ++ ex_mapping ++ lit " " ++ [dquote; newline] in
  scan_lines image_prefix (readlines text) = [ex_mapping ++ lit " "] /\
  endswith (lit " ") (ex_mapping ++ lit " ") = true /\
  existsb isspace (lit " ") = true.
Proof.
  intros image_prefix text. repeat split; vm_compute; reflexivity.
Qed.

(** C6, as the code has it. Take a digest map whose references hold no
    double quote, no line end and no [@], whose digests hold no double
    quote and no line end, and in which no reference ends a digest; take a
    text in which no two quoted occurrences of a reference of the map share
    a double quote. Then a second rewrite with the map leaves the result of
    the first one as it is. *)
Theorem rewrite_twice text (img_map : dict) :
  (forall e, In e img_map -> plain (fst e) /\ at_free (fst e) /\ plain (snd e)) ->
  (forall e e', In e img_map -> In e' img_map -> endswith (fst e) (snd e') = false) ->
  (forall e, In e img_map -> str_in (shared_quote (fst e)) text = false) ->
  replace_images_text (replace_images_text text img_map) img_map
  = replace_images_text text img_map.
Proof.
  intros H1 H2 H3. apply replace_images_idempotent; [| exact H2].
  intros e He. destruct (H1 e He) as [Hp [Ha Hd]]. auto.
Qed.

Lemma rewrite_twice_witness :
  let img_map := [(ex_mapping, ex_digest_a); (ex_webhook, ex_digest_b)] in
  replace_images_text (replace_images_text ex_manifest img_map) img_map
  = replace_images_text ex_manifest img_map.
Proof.
  intros img_map. apply rewrite_twice.
  - intros e [<- | [<- | []]]; repeat split; vm_compute; reflexivity.
  - intros e e' [<- | [<- | []]] [<- | [<- | []]]; vm_compute; reflexivity.
  - intros e [<- | [<- | []]]; vm_compute; reflexivity.
Defined.

(** C6 fails as it is written: the reference holds no [@], the digest is
    not empty, and the reference ends the digest, so that the second
    rewrite pins the pinned reference once more. A text in which two
    quoted occurrences share a double quote is changed by the second
    rewrite as well. *)
Lemma rewrite_twice_counterexample :
  let img_map := [(lit "abc", lit "sha256:abc")] in
  let text := lit "    image: abc" ++ [newline] in
  at_free (lit "abc") /\ lit "sha256:abc" <> [] /\
  replace_images_text text img_map
  = lit "    image: abc@sha256:abc" ++ [newline] /\
  replace_images_text (replace_images_text text img_map) img_map
  = lit "    image: abc@sha256:abc@sha256:abc" ++ [newline] /\
  replace_images_text (replace_images_text text img_map) img_map
  <> replace_images_text text img_map /\
  replace_images_text
    (replace_images_text (shared_quote ex_mapping) [(ex_mapping, ex_digest_a)])
    [(ex_mapping, ex_digest_a)]
  <> replace_images_text (shared_quote ex_mapping) [(ex_mapping, ex_digest_a)].
Proof.
  intros img_map text.
  split; [vm_compute; reflexivity|].
  split; [discriminate|].
  split; [vm_compute; reflexivity|].
  split; [vm_compute; reflexivity|].
  split; intros H; vm_compute in H; discriminate H.
Qed.

(** C7, as the code has it. Take a digest map with distinct references
    that start with a configured prefix and hold no double quote, no line
    end and no [@], none of them the end of another, and with digests
    [sha256:] and hexadecimal digits. Then the rewrite gives the same text
    for the items of the map in any order. *)
Theorem rewrite_any_order text (m1 m2 : dict) :
  Permutation m1 m2 ->
  NoDup (dict_keys m1) ->
  (forall e, In e m1 ->
             has_configured_prefix (fst e) /\ plain (fst e) /\ at_free (fst e) /\
             is_sha256_digest (snd e)) ->
  (forall e e', In e m1 -> In e' m1 -> fst e <> fst e' ->
                endswith (fst e) (fst e') = false) ->
  replace_images_text text m1 = replace_images_text text m2.
Proof.
  intros HP Hnd He Hsuf.
  destruct (text_as_words text) as [toks [fin [-> [Hwf Hfin]]]].
  assert (Forall (fun item => plain (fst item) /\ plain (snd item)) m1) as Hpl.
  { apply Forall_forall. intros e H. destruct (He e H) as [_ [Hp [_ Hd]]].
    split; [exact Hp | now apply sha256_plain]. }
  rewrite !replace_images_tok; try assumption.
  - f_equal. apply fold_left_perm_comm; [exact HP|].
    intros x y Hx Hy a.
    destruct (str_eq_dec (fst x) (fst y)) as [E | Hne].
    + now rewrite (nodup_keys_entry m1 x y Hnd Hx Hy E).
    + destruct (He x Hx) as [Cx [_ [Fx Dx]]]. destruct (He y Hy) as [Cy [_ [Fy Dy]]].
      apply tokstep_comm; auto using configured_not_in_digest.
  - eapply Permutation_Forall; eassumption.
Qed.

Lemma rewrite_any_order_witness :
  replace_images_text ex_manifest [(ex_mapping, ex_digest_a); (ex_webhook, ex_digest_b)]
  = replace_images_text ex_manifest [(ex_webhook, ex_digest_b); (ex_mapping, ex_digest_a)].
Proof.
  assert (ex_webhook <> ex_mapping) as Hne
    by (apply str_eqb_false_neq; vm_compute; reflexivity).
  apply rewrite_any_order.
  - apply perm_swap.
  - constructor; [| constructor; [intros [] | constructor]].
    intros [H | []]. now apply Hne.
  - intros e [<- | [<- | []]]; repeat split; vm_compute; reflexivity.
  - intros e e' [<- | [<- | []]] [<- | [<- | []]] Hn;
      try (exfalso; apply Hn; reflexivity); vm_compute; reflexivity.
Defined.

(** C7 fails as it is written: both references start with a configured
    prefix and hold no double quote and no line end, both digests are
    [sha256:] and hexadecimal digits, and the two orders of the items give
    two texts. *)
Lemma rewrite_any_order_counterexample :
  let e1 := (ex_release, ex_digest_a) in
  let e2 := (ex_release_twice, ex_digest_b) in
  has_configured_prefix ex_release /\ has_configured_prefix ex_release_twice /\
  plain ex_release /\ plain ex_release_twice /\
  is_sha256_digest ex_digest_a /\ is_sha256_digest ex_digest_b /\
  replace_images_text ex_manifest_twice [e1; e2]
  = lit "    value: " ++ quoted (pinned ex_release ex_digest_a) ++ [newline]
    ++ lit "    image: " ++ ended (pinned ex_release_twice ex_digest_a) /\
  replace_images_text ex_manifest_twice [e2; e1]
  = lit "    value: " ++ quoted (pinned ex_release ex_digest_a) ++ [newline]
    ++ lit "    image: " ++ ended (pinned ex_release_twice ex_digest_b) /\
  replace_images_text ex_manifest_twice [e1; e2]
  <> replace_images_text ex_manifest_twice [e2; e1].
Proof.
  intros e1 e2.
  repeat (split; [vm_compute; reflexivity|]).
  intros H. vm_compute in H. discriminate H.
Qed.

(** * Further properties of the scan *)

Lemma NoDup_flat_map_apart (A B : Type) (f : A -> list B) l :
  NoDup l -> (forall a, In a l -> NoDup (f a)) ->
  (forall a a' x, In a l -> In a' l -> In x (f a) -> In x (f a') -> a = a') ->
  NoDup (flat_map f l).
Proof.
  induction 1 as [|a l Hn Hd IH]; intros Hf Hx; cbn [flat_map]; [constructor|].
  apply NoDup_app.
  - apply Hf. now left.
  - apply IH.
    + intros a' Ha'. apply Hf. now right.
    + intros a1 a2 x H1 H2. apply Hx; now right.
  - intros x Hin Hin'. apply in_flat_map in Hin' as [a' [Ha' Hx']].
    assert (a = a') as <- by (apply (Hx a a' x); auto; [now left | now right]).
    contradiction.
Qed.

Lemma In_collect_images_text text p ref :
  In ref (collect_images_text text p) <->
  exists line, In line (readlines text) /\ In ref (scan_line p line).
Proof. unfold collect_images_text. now rewrite In_dedupe, In_scan_lines. Qed.

(** The lists of prefixes that are distinct, end with no double quote and
    of which none starts another give lists of references that are apart. *)
Lemma collected_apart text prefixes :
  NoDup prefixes ->
  (forall p, In p prefixes -> endswith [dquote] p = false) ->
  (forall p p', In p prefixes -> In p' prefixes -> startswith p p' = true -> p = p') ->
  NoDup (flat_map (collect_images_text text) prefixes).
Proof.
  intros Hn Hq Ha. apply NoDup_flat_map_apart; [exact Hn | |].
  - intros p _. apply strict_NoDup, dedupe_strict.
  - intros p p' x Hp Hp' Hx Hx'.
    apply In_collect_images_text in Hx as [l [_ Hx]].
    apply In_collect_images_text in Hx' as [l' [_ Hx']].
    apply (scan_line_startswith p l x (Hq p Hp)) in Hx.
    apply (scan_line_startswith p' l' x (Hq p' Hp')) in Hx'.
    destruct (startswith_total _ _ _ Hx Hx') as [E | E].
    + now apply Ha.
    + symmetry. now apply Ha.
Qed.

Lemma prefixes_NoDup : NoDup IMAGE_PREFIXES.
Proof.
  assert (nodup str_eq_dec IMAGE_PREFIXES = IMAGE_PREFIXES) as <-
    by (vm_compute; reflexivity).
  apply NoDup_nodup.
Qed.

(** X1. No reference is twice in the working set: the list of one prefix
    holds no duplicate, and a reference of one configured prefix is not a
    reference of another. *)
Theorem working_set_NoDup text : NoDup (working_set text).
Proof.
  unfold working_set. apply collected_apart.
  - apply prefixes_NoDup.
  - apply prefixes_no_quote.
  - apply prefixes_apart.
Qed.

Lemma readlines_concat text : concat (readlines text) = text.
Proof.
  induction text as [|c t IH]; [reflexivity|].
  cbn [readlines]. destruct (c =? newline)%N.
  - cbn [concat app]. now rewrite IH.
  - destruct (readlines t) as [|l ls].
    + cbn [concat] in *. subst t. reflexivity.
    + cbn [concat app] in *. now rewrite IH.
Qed.

(** X2. Every reference that [collect_images] returns stands as it is in
    the text of the manifest. *)
Theorem collected_reference_in_text text image_prefix ref :
  In ref (collect_images_text text image_prefix) -> str_in ref text = true.
Proof.
  intros H. apply In_collect_images_text in H as [line [Hl H]].
  destruct (scan_line_In image_prefix line ref H) as [a [b [q [Es [E _]]]]].
  apply in_split in Hl as [l1 [l2 Hl]].
  pose proof (readlines_concat text) as Ht.
  rewrite Hl, concat_app in Ht. cbn [concat] in Ht.
  unfold strip in Es.
  destruct (rstrip_prefix (lstrip line)) as [y Ey].
  destruct (lstrip_suffix line) as [x Ex].
  apply str_in_true.
  exists (concat l1 ++ x ++ a), (q ++ y ++ concat l2).
  rewrite <- Ht, Ex, Ey, Es, E. now rewrite <- !app_assoc.
Qed.

Lemma collected_reference_in_text_witness : str_in ex_webhook ex_manifest = true.
Proof.
  apply (collected_reference_in_text ex_manifest
           (lit "registry.ci.openshift.org/openshift/knative-")).
  vm_compute. right. left. reflexivity.
Defined.

(** *** White space around a line *)

Lemma lstrip_blank_app ws s : forallb isspace ws = true -> lstrip (ws ++ s) = lstrip s.
Proof.
  induction ws as [|c ws IH]; intros H; [reflexivity|].
  cbn [forallb] in H. apply andb_true_iff in H as [Hc H].
  cbn [app lstrip]. rewrite Hc. now apply IH.
Qed.

Lemma lstrip_blank ws : forallb isspace ws = true -> lstrip ws = [].
Proof.
  intros H. rewrite <- (app_nil_r ws). now rewrite lstrip_blank_app.
Qed.

Lemma lstrip_app_cases s t :
  (lstrip s = [] /\ forallb isspace s = true) \/ lstrip (s ++ t) = lstrip s ++ t.
Proof.
  induction s as [|c s IH].
  - left. split; reflexivity.
  - cbn [app lstrip forallb]. destruct (isspace c); [| now right].
    destruct IH as [[H1 H2] | H]; [left | right]; auto.
Qed.

Lemma rstrip_blank_app s ws : forallb isspace ws = true -> rstrip (s ++ ws) = rstrip s.
Proof.
  intros H. unfold rstrip. rewrite rev_app_distr, lstrip_blank_app; [reflexivity|].
  rewrite forallb_forall in *. intros c Hc. apply H. now apply in_rev.
Qed.

Lemma strip_blanks ws1 s ws2 :
  forallb isspace ws1 = true -> forallb isspace ws2 = true ->
  strip (ws1 ++ s ++ ws2) = strip s.
Proof.
  intros H1 H2. unfold strip. rewrite lstrip_blank_app by assumption.
  destruct (lstrip_app_cases s ws2) as [[E Hs] | E].
  - rewrite E, lstrip_blank; [reflexivity|].
    rewrite forallb_app, Hs, H2. reflexivity.
  - rewrite E. now apply rstrip_blank_app.
Qed.

(** X3. The scan of a line does not see the white space before and after
    it: indentation, blanks at the end and the line terminator. *)
Theorem scan_line_blanks image_prefix ws1 line ws2 :
  forallb isspace ws1 = true -> forallb isspace ws2 = true ->
  scan_line image_prefix (ws1 ++ line ++ ws2) = scan_line image_prefix line.
Proof.
  intros H1 H2. unfold scan_line. cbv zeta.
  rewrite strip_blanks by assumption. reflexivity.
Qed.

Lemma scan_line_blanks_witness :
  scan_line (lit "registry.ci.openshift.org/openshift/knative-")
            (lit "    " ++ (lit "image: " ++ ex_mapping) ++ [32; 13; 10]%N)
  = scan_line (lit "registry.ci.openshift.org/openshift/knative-")
              (lit "image: " ++ ex_mapping).
Proof. apply scan_line_blanks; vm_compute; reflexivity. Defined.

(** X4. The line formats of the comment in [collect_images]: a key, the
    reference, and possibly a double quote after it, with white space
    around. When the key, the reference and the quote together neither
    start nor end with white space, the reference does not end with a
    double quote and it starts at the first occurrence of the prefix in
    the line, the scan of the line gives the reference. For a quoted
    reference the key ends with the opening quote. *)
Theorem scan_line_documented image_prefix ws1 key ref q ws2 :
  q = [] \/ q = [dquote] ->
  forallb isspace ws1 = true -> forallb isspace ws2 = true ->
  strip (key ++ ref ++ q) = key ++ ref ++ q ->
  str_find image_prefix (key ++ ref ++ q) = Z.of_nat (length key) ->
  endswith [dquote] ref = false ->
  scan_line image_prefix (ws1 ++ (key ++ ref ++ q) ++ ws2) = [ref].
Proof.
  intros Hq H1 H2 Hs Hf Hr.
  unfold scan_line. cbv zeta. rewrite strip_blanks, Hs by assumption.
  assert (str_in image_prefix (key ++ ref ++ q) = true) as Hin
    by (apply str_find_in; rewrite Hf; lia).
  rewrite Hin, Hf, slice_from_app.
  destruct Hq as [-> | ->].
  - rewrite app_nil_r, Hr. reflexivity.
  - rewrite endswith_app, slice_to_last. reflexivity.
Qed.

Lemma scan_line_documented_witness :
  let p := lit "registry.ci.openshift.org/openshift/knative-" in
  scan_line p (lit "    " ++ (lit "image: " ++ ex_mapping ++ []) ++ [newline]) = [ex_mapping] /\
  scan_line p (lit "      " ++ (lit "value: " ++ [dquote] ++ ex_webhook ++ [dquote])
                 ++ [newline]) = [ex_webhook].
Proof.
  intros p. split.
  - apply scan_line_documented; try (vm_compute; reflexivity). now left.
  - change (lit "value: " ++ [dquote] ++ ex_webhook ++ [dquote])
      with ((lit "value: " ++ [dquote]) ++ ex_webhook ++ [dquote]).
    apply scan_line_documented; try (vm_compute; reflexivity). now right.
Defined.

(** * Further properties of the pipeline *)

Lemma world_eta (Store : Type) (w : World Store) :
  {| fs := fs w; store := store w |} = w.
Proof. now destruct w. Qed.

Lemma write_file_other path content (f : files) p :
  p <> path -> write_file path content f p = f p.
Proof. intros H. unfold write_file. now destruct (str_eq_dec p path). Qed.

Lemma write_file_same path content (f : files) :
  write_file path content f path = Some content.
Proof. unfold write_file. now destruct (str_eq_dec path path). Qed.

Lemma dict_keys_set k v d :
  dict_keys (dict_set k v d)
  = if in_dec str_eq_dec k (dict_keys d) then dict_keys d else dict_keys d ++ [k].
Proof.
  unfold dict_keys. induction d as [|[k' v'] d IH]; cbn [dict_set map].
  - now destruct (in_dec str_eq_dec k []).
  - destruct (str_eq_dec k k') as [->|Hn]; cbn [map fst].
    + destruct (in_dec str_eq_dec k' (k' :: map fst d)) as [|Hno];
        [reflexivity | exfalso; apply Hno; now left].
    + rewrite IH.
      destruct (in_dec str_eq_dec k (map fst d)) as [Hi | Hi];
        destruct (in_dec str_eq_dec k (k' :: map fst d)) as [Hj | Hj];
        try reflexivity.
      * exfalso. apply Hj. now right.
      * exfalso. destruct Hj as [Hj | Hj]; [congruence | contradiction].
Qed.

Section PipelineMore.

Variable Store : Type.
Variable client : DockerClient Store.

Lemma pull_images_ok images (w : World Store) st :
  pulled client images (store w) = Some st ->
  pull_images images client w = (Ok tt, {| fs := fs w; store := st |}).
Proof.
  revert w. induction images as [|img rest IH]; intros w H.
  - cbn [pulled] in H. inversion H. subst st.
    cbn [pull_images]. unfold ret. now rewrite world_eta.
  - cbn [pulled] in H. cbn [pull_images]. unfold bind.
    destruct (api_pull client img (store w)) as [st1|]; [| discriminate].
    now rewrite (IH {| fs := fs w; store := st1 |}).
Qed.

Lemma pull_images_ok_inv images (w w' : World Store) u :
  pull_images images client w = (Ok u, w') ->
  pulled client images (store w) = Some (store w') /\ fs w' = fs w.
Proof.
  revert w. induction images as [|img rest IH]; intros w H.
  - cbn [pull_images] in H. unfold ret in H. inversion H. subst. now split.
  - cbn [pull_images] in H. unfold bind in H. cbn [pulled].
    destruct (api_pull client img (store w)) as [st1|]; [| discriminate].
    apply IH in H. cbn [fs store] in H. exact H.
Qed.

Lemma pull_images_fail images (w : World Store) :
  pulled client images (store w) = None ->
  exists w', pull_images images client w = (Raise DockerException, w') /\
             fs w' = fs w.
Proof.
  revert w. induction images as [|img rest IH]; intros w H; [discriminate|].
  cbn [pulled] in H. cbn [pull_images]. unfold bind.
  destruct (api_pull client img (store w)) as [st1|].
  - destruct (IH {| fs := fs w; store := st1 |} H) as [w' [E Hf]].
    rewrite E. now exists w'.
  - now exists w.
Qed.

Lemma pulled_app l1 l2 (st : Store) :
  pulled client (l1 ++ l2) st
  = match pulled client l1 st with
    | Some st1 => pulled client l2 st1
    | None => None
    end.
Proof.
  revert st. induction l1 as [|img l1 IH]; intros st; [reflexivity|].
  cbn [app pulled]. destruct (api_pull client img st); [apply IH | reflexivity].
Qed.

Lemma image_map_loop_keys images acc (w w' : World Store) m :
  image_map_loop images client acc w = (Ok m, w') ->
  (forall r, In r (dict_keys m) <-> In r (dict_keys acc) \/ In r images) /\
  (NoDup (dict_keys acc) -> NoDup (dict_keys m)) /\
  (NoDup (dict_keys acc ++ images) -> dict_keys m = dict_keys acc ++ images) /\
  (forall r, In r images -> exists dg, image_digest r client w = (Ok dg, w)).
Proof.
  revert acc. induction images as [|i rest IH]; intros acc H.
  - cbn [image_map_loop] in H. unfold ret in H. inversion H. subst.
    repeat split; try tauto.
    + intros [Hr | []]. exact Hr.
    + now rewrite app_nil_r.
    + intros r [].
  - cbn [image_map_loop] in H. unfold bind in H.
    pose proof (image_digest_world Store client i w) as Hw.
    destruct (image_digest i client w) as [[dgi | e] w0] eqn:Ei;
      cbn [snd] in Hw; subst w0; [| discriminate].
    destruct (IH _ H) as [IH1 [IH2 [IH3 IH4]]].
    rewrite dict_keys_set in IH1, IH2, IH3.
    destruct (in_dec str_eq_dec i (dict_keys acc)) as [Hi | Hi].
    + repeat split.
      * intros Hr. apply IH1 in Hr. cbn [In]. tauto.
      * intros [Hr | [<- | Hr]]; apply IH1; tauto.
      * exact IH2.
      * intros Hn. exfalso. apply NoDup_remove_2 in Hn. apply Hn.
        apply in_or_app. now left.
      * intros r [<- | Hr]; [now exists dgi | now apply IH4].
    + repeat split.
      * intros Hr. apply IH1 in Hr. rewrite in_app_iff in Hr. cbn [In] in *. tauto.
      * intros Hr. apply IH1. rewrite in_app_iff. cbn [In] in *. tauto.
      * intros Hn. apply IH2. apply NoDup_app; [exact Hn | repeat constructor; auto |].
        intros a Ha [<- | []]. contradiction.
      * intros Hn. rewrite IH3; rewrite <- app_assoc; [reflexivity | exact Hn].
      * intros r [<- | Hr]; [now exists dgi | now apply IH4].
Qed.

End PipelineMore.

Lemma collect_all_missing (Store : Type) repo (w : World Store) :
  fs w (path_join repo CSV_FILE_NAME) = None ->
  collect_all repo IMAGE_PREFIXES w = (Raise FileNotFoundError, w).
Proof.
  intros H. unfold IMAGE_PREFIXES. cbn [collect_all]. unfold bind at 1.
  unfold collect_images, bind, read_file. cbv zeta. now rewrite H.
Qed.

(** X5. When the manifest is missing, [collect_images], [replace_images]
    and [execute] end by [FileNotFoundError], and nothing has been pulled
    or written. *)
Theorem missing_manifest (Store : Type) (client : DockerClient Store)
  repo target image_prefix img_map (w : World Store) :
  fs w (path_join repo CSV_FILE_NAME) = None ->
  collect_images repo image_prefix w = (Raise FileNotFoundError, w) /\
  replace_images repo img_map w = (Raise FileNotFoundError, w) /\
  execute client repo target w = (Raise FileNotFoundError, w).
Proof.
  intros H. split; [| split].
  - unfold collect_images, bind, read_file. cbv zeta. now rewrite H.
  - unfold replace_images, bind, read_file. cbv zeta. now rewrite H.
  - unfold execute. unfold bind at 1.
    now rewrite (collect_all_missing Store repo w H).
Qed.

Lemma missing_manifest_witness :
  let w := {| fs := fun _ => None; store := @nil str |} in
  execute ex_client ex_repo (lit "quay.io/aliok/index:t") w
  = (Raise FileNotFoundError, w).
Proof.
  intros w.
  apply (missing_manifest (list str) ex_client ex_repo (lit "quay.io/aliok/index:t")
           [] [] w).
  reflexivity.
Defined.

(** X6. [pull_images] pulls the images in their order and stops at the
    first pull that fails: the images before it are in the store, the
    images after it are not pulled, and no file has changed. *)
Theorem pull_images_stops (Store : Type) (client : DockerClient Store)
  before img after (w : World Store) st :
  pulled client before (store w) = Some st ->
  api_pull client img st = None ->
  pull_images (before ++ img :: after) client w
  = (Raise DockerException, {| fs := fs w; store := st |}).
Proof.
  revert w. induction before as [|b before IH]; intros w Hp Hf.
  - cbn [pulled] in Hp. inversion Hp. subst st.
    cbn [app pull_images]. unfold bind. rewrite Hf. now rewrite world_eta.
  - cbn [pulled] in Hp. cbn [app pull_images]. unfold bind.
    destruct (api_pull client b (store w)) as [st1|]; [| discriminate].
    now rewrite (IH {| fs := fs w; store := st1 |}).
Qed.

Lemma pull_images_stops_witness :
  pull_images ([ex_mapping] ++ ex_webhook :: [ex_release]) ex_client ex_world
  = (Raise DockerException, {| fs := fs ex_world; store := [ex_mapping] |}).
Proof.
  apply (pull_images_stops (list str) ex_client [ex_mapping] ex_webhook [ex_release]
           ex_world [ex_mapping]); vm_compute; reflexivity.
Defined.

(** X7. The digest that [create_image_map] keeps for an image is the text
    of the first listed entry between its first [@] and its next [@], or
    its end. A missing image raises [DockerException]; an empty list, and
    a first entry without [@], raise [IndexError]. *)
Theorem image_digest_cases (Store : Type) (client : DockerClient Store)
  img_name (w : World Store) :
  (images_get client img_name (store w) = None ->
   image_digest img_name client w = (Raise DockerException, w)) /\
  (images_get client img_name (store w) = Some [] ->
   image_digest img_name client w = (Raise IndexError, w)) /\
  (forall entry rest,
      images_get client img_name (store w) = Some (entry :: rest) ->
      at_free entry ->
      image_digest img_name client w = (Raise IndexError, w)) /\
  (forall name digest tail rest,
      images_get client img_name (store w)
      = Some ((name ++ at_sign :: digest ++ tail) :: rest) ->
      at_free name -> at_free digest ->
      tail = [] \/ (exists t, tail = at_sign :: t) ->
      image_digest img_name client w = (Ok digest, w)).
Proof.
  unfold image_digest. repeat split.
  - now intros ->.
  - now intros ->.
  - intros entry rest -> Hf. now rewrite str_split_at_free.
  - intros name digest tail rest -> Hn Hd Ht. rewrite str_split_pinned by assumption.
    destruct Ht as [-> | [t ->]].
    + rewrite app_nil_r, str_split_at_free by assumption. reflexivity.
    + rewrite str_split_pinned by assumption.
      destruct (str_split at_sign t); reflexivity.
Qed.

Lemma image_digest_cases_witness :
  let client := {| api_pull := api_pull ex_client;
                   images_get := fun _ _ =>
                     Some [lit "quay.io/x/img" ++ at_sign :: ex_digest_a
                             ++ at_sign :: ex_digest_b];
                   api_build := api_build ex_client |} in
  image_digest ex_mapping client ex_world = (Ok ex_digest_a, ex_world) /\
  image_digest ex_mapping ex_client ex_world = (Raise DockerException, ex_world).
Proof.
  intros client. split.
  - apply (proj2 (proj2 (proj2 (image_digest_cases (list str) client ex_mapping ex_world)))
             (lit "quay.io/x/img") ex_digest_a (at_sign :: ex_digest_b) []);
      try (vm_compute; reflexivity).
    right. now exists ex_digest_b.
  - apply (proj1 (image_digest_cases (list str) ex_client ex_mapping ex_world)).
    reflexivity.
Defined.

(** X8. The image map that [create_image_map] returns has the images as
    its keys, each once, in the order of the images when no image is
    twice among them; its value for an image is the digest read for it;
    and the files and the store are as before. *)
Theorem create_image_map_entries (Store : Type) (client : DockerClient Store)
  images (w w' : World Store) m :
  create_image_map images client w = (Ok m, w') ->
  w' = w /\
  NoDup (dict_keys m) /\
  (forall r, In r (dict_keys m) <-> In r images) /\
  (NoDup images -> dict_keys m = images) /\
  (forall r, In r images ->
             exists dg, image_digest r client w = (Ok dg, w) /\
                        dict_get r m = Some dg).
Proof.
  unfold create_image_map. intros H.
  pose proof (image_map_loop_world Store client images [] w) as Hw.
  rewrite H in Hw. cbn [snd] in Hw.
  destruct (image_map_loop_keys Store client images [] w w' m H) as [K1 [K2 [K3 K4]]].
  destruct (image_map_loop_spec Store client images [] w w' m H) as [S1 _].
  split; [exact Hw|]. split; [apply K2; constructor|].
  split; [intros r; rewrite K1; cbn [dict_keys map In]; tauto|].
  split; [exact K3|].
  intros r Hr. destruct (K4 r Hr) as [dg Hd]. exists dg. split; [exact Hd|].
  now apply S1.
Qed.

Lemma create_image_map_entries_witness :
  let w := {| fs := fs ex_world; store := [ex_webhook; ex_mapping] |} in
  exists m,
    create_image_map [ex_mapping; ex_webhook] ex_client w = (Ok m, w) /\
    NoDup (dict_keys m) /\
    dict_keys m = [ex_mapping; ex_webhook] /\
    dict_get ex_webhook m = Some ex_digest_a.
Proof.
  intros w.
  assert (exists m, create_image_map [ex_mapping; ex_webhook] ex_client w = (Ok m, w))
    as [m H] by (eexists; vm_compute; reflexivity).
  exists m. split; [exact H|].
  destruct (create_image_map_entries (list str) ex_client _ w w m H)
    as [_ [Hn [_ [Hk Hv]]]].
  split; [exact Hn|]. split.
  - apply Hk. constructor; [| constructor; [intros [] | constructor]].
    intros [E | []]. revert E. apply str_eqb_false_neq. vm_compute. reflexivity.
  - destruct (Hv ex_webhook) as [dg [Hd Hg]]; [right; now left|].
    vm_compute in Hd. inversion Hd. subst dg. exact Hg.
Defined.

Section ExecuteMore.

Variable Store : Type.
Variable client : DockerClient Store.

Lemma execute_after_map repo target (w : World Store) text st m :
  fs w (path_join repo CSV_FILE_NAME) = Some text ->
  pulled client (working_set text) (store w) = Some st ->
  create_image_map (working_set text) client {| fs := fs w; store := st |}
  = (Ok m, {| fs := fs w; store := st |}) ->
  let rewritten :=
    write_file (path_join repo CSV_FILE_NAME) (replace_images_text text m) (fs w) in
  execute client repo target w
  = match api_build client rewritten
            (path_join (path_join repo (lit "olm-catalog")) (lit "serverless-operator"))
            target st with
    | Some st' => (Ok tt, {| fs := rewritten; store := st' |})
    | None => (Raise DockerException, {| fs := rewritten; store := st |})
    end.
Proof.
  intros Hf Hp Hm rewritten. unfold execute. unfold bind at 1.
  rewrite (collect_all_working_set Store repo w text Hf).
  unfold bind at 1. rewrite (pull_images_ok Store client _ w st Hp).
  unfold bind at 1. rewrite Hm.
  unfold bind at 1. unfold replace_images, bind, read_file, write. cbv zeta.
  cbn [fs store]. rewrite Hf.
  unfold build_index_image. cbv zeta. cbn [fs store]. reflexivity.
Qed.

(** What a run of [execute] can have done to the world. *)
Lemma execute_cases repo target (w : World Store) :
  (fs w (path_join repo CSV_FILE_NAME) = None /\
   execute client repo target w = (Raise FileNotFoundError, w)) \/
  (exists text,
      fs w (path_join repo CSV_FILE_NAME) = Some text /\
      ((exists e w', execute client repo target w = (Raise e, w') /\ fs w' = fs w) \/
       (exists st m,
           pulled client (working_set text) (store w) = Some st /\
           create_image_map (working_set text) client {| fs := fs w; store := st |}
           = (Ok m, {| fs := fs w; store := st |})))).
Proof.
  destruct (fs w (path_join repo CSV_FILE_NAME)) as [text|] eqn:Hf.
  - right. exists text. split; [reflexivity|].
    destruct (pulled client (working_set text) (store w)) as [st|] eqn:Hp.
    + destruct (create_image_map (working_set text) client
                  {| fs := fs w; store := st |}) as [[m | e] w1] eqn:Hm.
      * right. exists st, m. split; [reflexivity|].
        pose proof (image_map_loop_world Store client (working_set text) []
                      {| fs := fs w; store := st |}) as Hw.
        unfold create_image_map in Hm. rewrite Hm in Hw. cbn [snd] in Hw.
        now subst w1.
      * left. exists e, w1.
        pose proof (image_map_loop_world Store client (working_set text) []
                      {| fs := fs w; store := st |}) as Hw.
        unfold create_image_map in Hm. rewrite Hm in Hw. cbn [snd] in Hw. subst w1.
        split; [| reflexivity].
        unfold execute. unfold bind at 1.
        rewrite (collect_all_working_set Store repo w text Hf).
        unfold bind at 1. rewrite (pull_images_ok Store client _ w st Hp).
        unfold bind at 1. unfold create_image_map. now rewrite Hm.
    + left. destruct (pull_images_fail Store client _ w Hp) as [w' [E Hw]].
      exists DockerException, w'. split; [| exact Hw].
      unfold execute. unfold bind at 1.
      rewrite (collect_all_working_set Store repo w text Hf).
      unfold bind at 1. now rewrite E.
  - left. split; [reflexivity|].
    unfold execute. unfold bind at 1.
    now rewrite (collect_all_missing Store repo w Hf).
Qed.

End ExecuteMore.

(** The files after [execute], in the three cases of [execute_cases]. *)
Lemma execute_files (Store : Type) (client : DockerClient Store)
  repo target (w : World Store) :
  fs (snd (execute client repo target w)) = fs w \/
  exists text m,
    fs w (path_join repo CSV_FILE_NAME) = Some text /\
    fs (snd (execute client repo target w))
    = write_file (path_join repo CSV_FILE_NAME) (replace_images_text text m) (fs w).
Proof.
  destruct (execute_cases Store client repo target w)
    as [[Hf E] | [text [Hf [[e [w1 [E Hw]]] | [st [m [Hp Hm]]]]]]].
  - left. now rewrite E.
  - left. now rewrite E.
  - right. exists text, m. split; [exact Hf|].
    rewrite (execute_after_map Store client repo target w text st m Hf Hp Hm).
    now destruct (api_build _ _ _ _ _).
Qed.

(** X9. Whatever the end of [execute], no file but the manifest has
    changed, and the manifest is as before or is the rewrite of its text
    with some image map. *)
Theorem execute_writes_manifest_only (Store : Type) (client : DockerClient Store)
  repo target (w : World Store) :
  let w' := snd (execute client repo target w) in
  (forall p, p <> path_join repo CSV_FILE_NAME -> fs w' p = fs w p) /\
  (fs w' (path_join repo CSV_FILE_NAME) = fs w (path_join repo CSV_FILE_NAME) \/
   exists text m,
     fs w (path_join repo CSV_FILE_NAME) = Some text /\
     fs w' (path_join repo CSV_FILE_NAME) = Some (replace_images_text text m)).
Proof.
  intros w'. subst w'.
  destruct (execute_files Store client repo target w) as [E | [text [m [Hf E]]]];
    rewrite E.
  - split; [reflexivity | now left].
  - split.
    + intros p Hne. now apply write_file_other.
    + right. exists text, m. split; [exact Hf | apply write_file_same].
Qed.

(** X10. When [execute] returns, every reference of the working set of the
    manifest has been pulled, in the order of the working set; the image
    map has the working set as its keys; the manifest is the rewrite of
    its text with the image map, and the build has run on the files with
    the rewritten manifest. *)
Theorem execute_returns (Store : Type) (client : DockerClient Store)
  repo target (w w' : World Store) u :
  execute client repo target w = (Ok u, w') ->
  exists text st m,
    fs w (path_join repo CSV_FILE_NAME) = Some text /\
    pulled client (working_set text) (store w) = Some st /\
    create_image_map (working_set text) client {| fs := fs w; store := st |}
    = (Ok m, {| fs := fs w; store := st |}) /\
    dict_keys m = working_set text /\
    fs w' = write_file (path_join repo CSV_FILE_NAME)
                       (replace_images_text text m) (fs w) /\
    api_build client (fs w')
              (path_join (path_join repo (lit "olm-catalog")) (lit "serverless-operator"))
              target st
    = Some (store w').
Proof.
  intros H.
  destruct (execute_cases Store client repo target w)
    as [[Hf E] | [text [Hf [[e [w1 [E Hw]]] | [st [m [Hp Hm]]]]]]];
    try (rewrite E in H; discriminate).
  exists text, st, m. repeat split; try assumption.
  - unfold create_image_map in Hm.
    apply (image_map_loop_keys Store client _ [] _ _ m Hm). cbn [dict_keys map app].
    unfold working_set. apply collected_apart;
      [apply prefixes_NoDup | apply prefixes_no_quote | apply prefixes_apart].
  - rewrite (execute_after_map Store client repo target w text st m Hf Hp Hm) in H.
    destruct (api_build _ _ _ _ _); inversion H. reflexivity.
  - rewrite (execute_after_map Store client repo target w text st m Hf Hp Hm) in H.
    destruct (api_build _ _ _ _ _) eqn:Eb; inversion H. subst. cbn [fs store].
    exact Eb.
Qed.

Lemma execute_returns_witness :
  exists w',
    execute ex_client ex_repo (lit "quay.io/aliok/index:t") ex_world_single
    = (Ok tt, w') /\
    fs w' (path_join ex_repo CSV_FILE_NAME)
    = Some (lit "    image: " ++ ended (pinned ex_mapping ex_digest_a)).
Proof.
  assert (exists w', execute ex_client ex_repo (lit "quay.io/aliok/index:t")
                             ex_world_single = (Ok tt, w')) as [w' H]
    by (eexists; vm_compute; reflexivity).
  exists w'. split; [exact H|].
  destruct (execute_returns (list str) ex_client ex_repo _ ex_world_single w' tt H)
    as [text [st [m [Hf [Hp [Hm [_ [Hw _]]]]]]]].
  rewrite Hw, write_file_same.
  vm_compute in Hf. inversion Hf. subst text. clear Hf.
  vm_compute in Hp. inversion Hp. subst st. clear Hp.
  vm_compute in Hm. inversion Hm. subst m.
  vm_compute. reflexivity.
Defined.

(** X11. There is no way back after the rewrite: when the pulls and the
    image map have succeeded and the build fails, [execute] ends by
    [DockerException] and the manifest stays rewritten. *)
Theorem build_failure_keeps_rewrite (Store : Type) (client : DockerClient Store)
  repo target (w : World Store) text st m :
  fs w (path_join repo CSV_FILE_NAME) = Some text ->
  pulled client (working_set text) (store w) = Some st ->
  create_image_map (working_set text) client {| fs := fs w; store := st |}
  = (Ok m, {| fs := fs w; store := st |}) ->
  api_build client
            (write_file (path_join repo CSV_FILE_NAME)
                        (replace_images_text text m) (fs w))
            (path_join (path_join repo (lit "olm-catalog")) (lit "serverless-operator"))
            target st = None ->
  exists w',
    execute client repo target w = (Raise DockerException, w') /\
    fs w' (path_join repo CSV_FILE_NAME) = Some (replace_images_text text m) /\
    store w' = st.
Proof.
  intros Hf Hp Hm Hb.
  rewrite (execute_after_map Store client repo target w text st m Hf Hp Hm), Hb.
  eexists. split; [reflexivity|]. cbn [fs store].
  split; [apply write_file_same | reflexivity].
Qed.

Lemma build_failure_keeps_rewrite_witness :
  exists w',
    execute ex_client_no_build ex_repo (lit "quay.io/aliok/index:t") ex_world_single
    = (Raise DockerException, w') /\
    fs w' (path_join ex_repo CSV_FILE_NAME)
    = Some (replace_images_text ex_manifest_single [(ex_mapping, ex_digest_a)]) /\
    store w' = [ex_mapping].
Proof.
  apply (build_failure_keeps_rewrite (list str) ex_client_no_build ex_repo
           (lit "quay.io/aliok/index:t") ex_world_single
           ex_manifest_single [ex_mapping] [(ex_mapping, ex_digest_a)]);
    vm_compute; reflexivity.
Defined.

(** * Further properties of the rewrite *)

Lemma replace_image_absent t item :
  str_in (quoted (fst item)) t = false -> str_in (ended (fst item)) t = false ->
  replace_image t item = t.
Proof.
  destruct item as [r d]. cbn [fst]. intros Hq He. unfold replace_image.
  rewrite (str_replace_absent (quoted r)) by (apply quoted_nonempty || exact Hq).
  apply str_replace_absent; [apply ended_nonempty | exact He].
Qed.

(** X12. A text in which no reference of the image map stands between
    double quotes or before a line end is left as it is; so is, for every
    image map, a text without double quote and without line end. *)
Theorem rewrite_without_anchor text (img_map : dict) :
  ((forall e, In e img_map ->
              str_in (quoted (fst e)) text = false /\
              str_in (ended (fst e)) text = false) ->
   replace_images_text text img_map = text) /\
  (plain text -> replace_images_text text img_map = text).
Proof.
  assert ((forall e, In e img_map ->
                     str_in (quoted (fst e)) text = false /\
                     str_in (ended (fst e)) text = false) ->
          replace_images_text text img_map = text) as H.
  { unfold replace_images_text. induction img_map as [|e m IH]; intros H;
      [reflexivity|].
    cbn [fold_left]. destruct (H e (or_introl eq_refl)) as [Hq He].
    rewrite replace_image_absent by assumption.
    apply IH. intros e' He'. apply H. now right. }
  split; [exact H|].
  intros Hp. apply H. intros e _. split.
  - unfold quoted. apply (plain_not_in [] dquote); [exact Hp | reflexivity].
  - unfold ended. apply plain_not_in; [exact Hp | reflexivity].
Qed.

Lemma rewrite_without_anchor_witness :
  replace_images_text (lit "    image: " ++ ex_mapping) [(ex_mapping, ex_digest_a)]
  = lit "    image: " ++ ex_mapping.
Proof.
  apply (proj2 (rewrite_without_anchor (lit "    image: " ++ ex_mapping)
                  [(ex_mapping, ex_digest_a)])).
  vm_compute. reflexivity.
Defined.

(** *** The rewrite only adds *)

Lemma subseq_refl a : subseq a a.
Proof. induction a; [apply subseq_nil | now apply subseq_take]. Qed.

Lemma subseq_app a a' b b' : subseq a a' -> subseq b b' -> subseq (a ++ b) (a' ++ b').
Proof.
  induction 1 as [|a a' c H IH|a a' c H IH]; intros Hb; cbn [app].
  - exact Hb.
  - apply subseq_skip. now apply IH.
  - apply subseq_take. now apply IH.
Qed.

Lemma subseq_trans a b c : subseq a b -> subseq b c -> subseq a c.
Proof.
  intros Hab Hbc. revert a Hab. induction Hbc as [|b c x Hbc IH|b c x Hbc IH];
    intros a Hab.
  - exact Hab.
  - apply subseq_skip. now apply IH.
  - inversion Hab; subst.
    + apply subseq_skip. now apply IH.
    + apply subseq_take. now apply IH.
Qed.

Lemma subseq_length a b : subseq a b -> length a <= length b.
Proof. induction 1; simpl; lia. Qed.

Lemma subseq_skip_app x b : subseq b (x ++ b).
Proof. induction x; cbn [app]; [apply subseq_refl | now apply subseq_skip]. Qed.

Lemma str_replace_subseq old new t :
  old <> [] -> subseq old new -> subseq t (str_replace old new t).
Proof.
  intros Ho Hs.
  destruct (str_replace_all_replaced old new t Ho) as [gaps [rest [-> [-> _]]]].
  apply subseq_app; [| apply subseq_refl].
  induction gaps as [|g gaps IH]; cbn [flat_map]; [apply subseq_nil|].
  apply subseq_app; [| exact IH].
  apply subseq_app; [apply subseq_refl | exact Hs].
Qed.

Lemma replace_image_subseq t item : subseq t (replace_image t item).
Proof.
  destruct item as [r d]. unfold replace_image, pinned.
  eapply subseq_trans.
  - apply (str_replace_subseq (quoted r) (quoted (r ++ at_sign :: d)));
      [apply quoted_nonempty|].
    unfold quoted. apply subseq_take. rewrite <- app_assoc.
    apply subseq_app; [apply subseq_refl|].
    apply (subseq_skip_app (at_sign :: d)).
  - apply str_replace_subseq; [apply ended_nonempty|].
    unfold ended. rewrite <- app_assoc.
    apply subseq_app; [apply subseq_refl|].
    apply (subseq_skip_app (at_sign :: d)).
Qed.

(** X13. The rewrite only adds characters: the text of the manifest is the
    rewritten text with some characters left out, and is not longer than
    it. *)
Theorem rewrite_only_adds text (img_map : dict) :
  subseq text (replace_images_text text img_map) /\
  length text <= length (replace_images_text text img_map).
Proof.
  assert (subseq text (replace_images_text text img_map)) as H.
  { unfold replace_images_text. revert text.
    induction img_map as [|e m IH]; intros text; cbn [fold_left].
    - apply subseq_refl.
    - eapply subseq_trans; [apply replace_image_subseq | apply IH]. }
  split; [exact H | now apply subseq_length].
Qed.

(** *** Characters and lines *)

Lemma count_flat_map_app (c : char) (f : str) gaps :
  count_occ char_eq_dec (flat_map (fun g => g ++ f) gaps) c
  = count_occ char_eq_dec (concat gaps) c
    + length gaps * count_occ char_eq_dec f c.
Proof.
  induction gaps as [|g gaps IH]; [reflexivity|].
  cbn [flat_map concat length]. rewrite !count_occ_app, IH. lia.
Qed.

Lemma str_replace_count old new t c :
  old <> [] ->
  count_occ char_eq_dec new c = count_occ char_eq_dec old c ->
  count_occ char_eq_dec (str_replace old new t) c = count_occ char_eq_dec t c.
Proof.
  intros Ho Hc.
  destruct (str_replace_all_replaced old new t Ho) as [gaps [rest [-> [-> _]]]].
  rewrite !count_occ_app, !count_flat_map_app, Hc. reflexivity.
Qed.

Lemma replace_image_count t item c :
  c <> at_sign -> ~ In c (snd item) ->
  count_occ char_eq_dec (replace_image t item) c = count_occ char_eq_dec t c.
Proof.
  destruct item as [r d]. cbn [snd]. intros Hc Hd.
  assert (count_occ char_eq_dec (at_sign :: d) c = 0) as Hz.
  { cbn [count_occ]. destruct (char_eq_dec at_sign c); [congruence|].
    now apply count_occ_not_In. }
  unfold replace_image, pinned.
  rewrite !str_replace_count; try reflexivity;
    try apply quoted_nonempty; try apply ended_nonempty.
  - unfold quoted. cbn [count_occ]. rewrite !count_occ_app, Hz.
    destruct (char_eq_dec dquote c); lia.
  - unfold ended. rewrite !count_occ_app, Hz. lia.
Qed.

Lemma last_app_nonempty (a b : str) d : b <> [] -> last (a ++ b) d = last b d.
Proof.
  intros Hb. destruct b as [|x b _] using rev_ind; [congruence|].
  now rewrite app_assoc, !last_last.
Qed.

Lemma str_replace_last old new t d :
  old <> [] -> new <> [] -> last new d = last old d ->
  last (str_replace old new t) d = last t d.
Proof.
  intros Ho Hn Hl.
  destruct (str_replace_all_replaced old new t Ho) as [gaps [rest [-> [-> _]]]].
  destruct rest as [|x rest].
  - rewrite !app_nil_r. induction gaps as [|g gaps IH]; [reflexivity|].
    cbn [flat_map]. destruct gaps as [|g' gaps].
    + cbn [flat_map]. rewrite !app_nil_r.
      rewrite !last_app_nonempty by assumption. exact Hl.
    + rewrite !(last_app_nonempty (g ++ _)); [exact IH | |];
        cbn [flat_map]; intros E; apply app_eq_nil in E as [E _];
        apply app_eq_nil in E as [_ E]; congruence.
  - rewrite !last_app_nonempty by discriminate. reflexivity.
Qed.

Lemma quoted_last r r' d : last (quoted r) d = last (quoted r') d.
Proof.
  unfold quoted.
  change (dquote :: r ++ [dquote]) with ((dquote :: r) ++ [dquote]).
  change (dquote :: r' ++ [dquote]) with ((dquote :: r') ++ [dquote]).
  now rewrite !last_last.
Qed.

Lemma ended_last r r' d : last (ended r) d = last (ended r') d.
Proof. unfold ended. now rewrite !last_last. Qed.

Lemma replace_image_last t item d : last (replace_image t item) d = last t d.
Proof.
  destruct item as [r dg]. unfold replace_image.
  transitivity (last (str_replace (quoted r) (quoted (pinned r dg)) t) d).
  - apply str_replace_last;
      [apply ended_nonempty | apply ended_nonempty | apply ended_last].
  - apply str_replace_last;
      [apply quoted_nonempty | apply quoted_nonempty | apply quoted_last].
Qed.

Lemma readlines_nil text : readlines text = [] -> text = [].
Proof.
  destruct text as [|c t]; [reflexivity|]. cbn [readlines].
  destruct (c =? newline)%N; [discriminate|].
  destruct (readlines t); discriminate.
Qed.

(** The number of lines: one for each line end, and one more for a last
    line without line end. *)
Lemma readlines_length text :
  length (readlines text)
  = count_occ char_eq_dec text newline
    + (if (last text newline =? newline)%N then 0 else 1).
Proof.
  induction text as [|c t IH]; [reflexivity|].
  cbn [readlines count_occ]. destruct (N.eqb_spec c newline) as [->|Hc].
  - destruct (char_eq_dec newline newline); [| congruence].
    cbn [length]. rewrite IH. destruct t; [reflexivity|]. cbn [last]. lia.
  - destruct (char_eq_dec c newline); [congruence|].
    destruct (readlines t) as [|l ls] eqn:E.
    + apply readlines_nil in E. subst t. cbn [length count_occ last].
      apply N.eqb_neq in Hc. now rewrite Hc.
    + cbn [length] in *. rewrite IH.
      destruct t as [|x t]; [discriminate|]. reflexivity.
Qed.

(** X14. The rewrite keeps the count of every character but [@] that no
    digest of the image map holds; with digests without line end it keeps
    the number of lines of the manifest. *)
Theorem rewrite_keeps_lines text (img_map : dict) :
  (forall c, c <> at_sign -> (forall e, In e img_map -> ~ In c (snd e)) ->
             count_occ char_eq_dec (replace_images_text text img_map) c
             = count_occ char_eq_dec text c) /\
  ((forall e, In e img_map -> ~ In newline (snd e)) ->
   length (readlines (replace_images_text text img_map)) = length (readlines text)).
Proof.
  assert (forall c, c <> at_sign -> (forall e, In e img_map -> ~ In c (snd e)) ->
                    count_occ char_eq_dec (replace_images_text text img_map) c
                    = count_occ char_eq_dec text c) as Hcount.
  { intros c Hc. unfold replace_images_text. revert text.
    induction img_map as [|e m IH]; intros text H; [reflexivity|].
    cbn [fold_left]. rewrite IH by (intros e' He'; apply H; now right).
    apply replace_image_count; [exact Hc | apply H; now left]. }
  split; [exact Hcount|].
  intros H. rewrite !readlines_length, Hcount by (discriminate || exact H).
  f_equal.
  assert (last (replace_images_text text img_map) newline = last text newline) as ->;
    [| reflexivity].
  unfold replace_images_text. clear. revert text.
  induction img_map as [|e m IH]; intros text; [reflexivity|].
  cbn [fold_left]. now rewrite IH, replace_image_last.
Qed.

Lemma rewrite_keeps_lines_witness :
  length (readlines (replace_images_text ex_manifest
                       [(ex_mapping, ex_digest_a); (ex_webhook, ex_digest_b)]))
  = length (readlines ex_manifest).
Proof.
  apply (proj2 (rewrite_keeps_lines ex_manifest
                  [(ex_mapping, ex_digest_a); (ex_webhook, ex_digest_b)])).
  intros e [<- | [<- | []]]; vm_compute; intuition discriminate.
Defined.

(** *** White space before the line end *)

Lemma replace_image_kept_line r d X rstar Y :
  plain r -> plain d -> plain rstar ->
  (forall x, endswith r (x ++ rstar) = false) ->
  replace_image (X ++ rstar ++ newline :: Y) (r, d)
  = replace_image X (r, d) ++ rstar ++ newline :: replace_image Y (r, d).
Proof.
  intros Hr Hd Hs H. destruct (text_as_words X) as [tX [x [-> [WX PX]]]].
  rewrite replace_image_line_tok by assumption. now rewrite H.
Qed.

Lemma blanks_not_suffix r ws x :
  r <> [] -> isspace (last r newline) = false ->
  ws <> [] -> forallb isspace ws = true ->
  endswith r (x ++ ws) = false.
Proof.
  intros Hrne Hlast Hne Hb.
  destruct (endswith r (x ++ ws)) eqn:E; [| reflexivity].
  apply endswith_true in E as [t E]. exfalso.
  destruct ws as [|b ws' _] using rev_ind; [congruence|].
  destruct r as [|c r' _] using rev_ind; [congruence|].
  rewrite !app_assoc in E. apply app_inj_tail in E as [_ E]. subst c.
  rewrite forallb_app in Hb. apply andb_true_iff in Hb as [_ Hb].
  cbn [forallb] in Hb. rewrite andb_true_r in Hb.
  rewrite last_last in Hlast. congruence.
Qed.

(** X15. White space before a line end keeps the rewrite from pinning
    there. For an image map whose references and digests hold no double
    quote and no line end and whose references are not empty and do not
    end with white space, the rewrite of a text with a word [r] (without
    double quote or line end; it may be a reference of the map), then
    white space other than a line end, then the line end, is the rewrite
    of the text before, then the word, the white space and the line end
    as they are, then the rewrite of the text after. *)
Theorem trailing_blanks_unpinned img_map r ws X Y :
  (forall ref d, In (ref, d) img_map ->
     plain ref /\ plain d /\ ref <> [] /\ isspace (last ref newline) = false) ->
  plain r -> plain ws -> ws <> [] -> forallb isspace ws = true ->
  replace_images_text (X ++ r ++ ws ++ newline :: Y) img_map
  = replace_images_text X img_map ++ r ++ ws ++ newline
      :: replace_images_text Y img_map.
Proof.
  intros Hm Hr Hw Hne Hb. unfold replace_images_text.
  revert X Y. induction img_map as [|[ref d] m IH]; intros X Y;
    cbn [fold_left]; [reflexivity|].
  destruct (Hm ref d (or_introl eq_refl)) as [Pr [Pd [Nr Lr]]].
  rewrite <- IH by (intros ref' d' Hin; apply Hm; now right).
  f_equal. rewrite !(app_assoc r ws).
  apply replace_image_kept_line; try assumption.
  - apply plain_app. now split.
  - intros x. rewrite app_assoc. now apply blanks_not_suffix.
Qed.

Lemma trailing_blanks_unpinned_witness :
  let img_map := [(ex_mapping, ex_digest_a); (ex_release, ex_digest_b)] in
  replace_images_text
    (lit "    image: " ++ ex_mapping ++ lit "  " ++ newline
       :: lit "    value: " ++ quoted ex_release) img_map
  = replace_images_text (lit "    image: ") img_map
    ++ ex_mapping ++ lit "  " ++ newline
    :: replace_images_text (lit "    value: " ++ quoted ex_release) img_map.
Proof.
  intros img_map.
  apply (trailing_blanks_unpinned img_map ex_mapping (lit "  ")
           (lit "    image: ") (lit "    value: " ++ quoted ex_release));
    [ intros ref d [E | [E | []]]; inversion E; subst;
      repeat split; try (vm_compute; reflexivity); discriminate
    | vm_compute; reflexivity
    | vm_compute; reflexivity
    | discriminate
    | vm_compute; reflexivity ].
Defined.

(** * The caller *)

(** X16. [main] ends with an exit status only for arguments that it
    refuses and that hold the name of the script: other than two of them
    after that name, or a target name with a colon. The status is then 1,
    and no directory has been made, nothing cloned, pulled or written.
    Without any argument, not even the name of the script, [print_help]
    raises [IndexError] before the exit. *)
Theorem main_exit_status (Store : Type) (host : Host) (client : DockerClient Store)
  argv (w w' : World Store) status :
  (main host client argv w = (SystemExit status, w') <->
   status = 1%Z /\ w' = w /\ argv <> [] /\
   forall script branch base,
     argv = [script; branch; base] -> str_in (lit ":") base = true) /\
  main host client [] w = (Uncaught IndexError, w).
Proof.
  split; [| reflexivity].
  unfold main, refuse. split.
  - intros H.
    destruct argv as [|a [|b [|t [|x rest]]]]; cbn [print_help] in H;
      try discriminate;
      try (inversion H; subst; repeat split; intros; discriminate).
    destruct (str_in (lit ":") t) eqn:Et.
    + inversion H; subst. repeat split; [discriminate|]. intros s br ba E.
      inversion E; subst. exact Et.
    + destruct (mkdtemp host (lit "serverless-operator-") (fs w)) as [[dir made]|];
        [| discriminate].
      unfold clone in H. cbn [fs store] in H.
      destruct (clone_from host REPOSITORY dir b made) as [[|] cloned];
        cbv beta iota zeta in H; cbn [fs store] in H; [| discriminate].
      destruct (rev_parse_short host dir cloned); [| discriminate].
      destruct (execute client dir _ _) as [[u | e] w3]; discriminate.
  - intros [-> [-> [Hne H]]].
    destruct argv as [|a [|b [|t [|x rest]]]]; try reflexivity; [congruence|].
    now rewrite (H a b t eq_refl).
Qed.

Lemma main_exit_status_witness :
  main ex_host ex_client
       [lit "main.py"; lit "release-1.24"; lit "quay.io/aliok/index:latest"] ex_world
  = (SystemExit 1, ex_world).
Proof.
  apply (proj2 (proj1 (main_exit_status (list str) ex_host ex_client _
                         ex_world ex_world 1))).
  repeat split; [discriminate|].
  intros script branch base E. inversion E. vm_compute. reflexivity.
Defined.

(** X17. With arguments that [main] accepts and a directory made, every
    file but the manifest of the clone is after [main] as git has left it,
    however [main] ends; when the clone fails, nothing has been pulled. *)
Theorem main_writes_manifest_only (Store : Type) (host : Host)
  (client : DockerClient Store) script branch base (w : World Store)
  dir made ok cloned :
  str_in (lit ":") base = false ->
  mkdtemp host (lit "serverless-operator-") (fs w) = Some (dir, made) ->
  clone_from host REPOSITORY dir branch made = (ok, cloned) ->
  let w' := snd (main host client [script; branch; base] w) in
  (forall p, p <> path_join dir CSV_FILE_NAME -> fs w' p = cloned p) /\
  (ok = false ->
   main host client [script; branch; base] w
   = (GitCommandError, {| fs := cloned; store := store w |})).
Proof.
  intros Hb Hm Hc w'. subst w'. unfold main. rewrite Hb, Hm.
  unfold clone. cbn [fs store]. rewrite Hc. cbv beta iota zeta. cbn [fs store].
  destruct ok.
  - split; [| discriminate].
    destruct (rev_parse_short host dir cloned) as [rev|]; [| reflexivity].
    intros p Hp.
    assert (fs (snd (execute client dir
                       (base ++ lit ":" ++ branch ++ lit "-" ++ rev ++ lit "-"
                          ++ strftime_now host)
                       {| fs := cloned; store := store w |})) p = cloned p) as Hf.
    { destruct (execute_files Store client dir
                  (base ++ lit ":" ++ branch ++ lit "-" ++ rev ++ lit "-"
                     ++ strftime_now host)
                  {| fs := cloned; store := store w |}) as [E | [text [m [_ E]]]];
        rewrite E; cbn [fs]; [reflexivity | now apply write_file_other]. }
    destruct (execute client dir _ _) as [[u | e] w3]; exact Hf.
  - split; [reflexivity | reflexivity].
Qed.

Lemma main_writes_manifest_only_witness :
  let argv := [lit "main.py"; lit "release-1.24"; lit "quay.io/aliok/index"] in
  let dir := lit "/tmp/serverless-operator-k3" in
  fst (main ex_host ex_client argv ex_world) = Returned /\
  fs (snd (main ex_host ex_client argv ex_world)) (path_join ex_repo CSV_FILE_NAME)
  = Some ex_manifest /\
  fs (snd (main ex_host ex_client argv ex_world)) (path_join dir CSV_FILE_NAME)
  = Some (lit "    image: " ++ ended (pinned ex_mapping ex_digest_a)).
Proof.
  intros argv dir. split; [vm_compute; reflexivity|]. split.
  - destruct (main_writes_manifest_only (list str) ex_host ex_client
                (lit "main.py") (lit "release-1.24") (lit "quay.io/aliok/index")
                ex_world dir (fs ex_world) true
                (write_file (path_join dir CSV_FILE_NAME) ex_manifest_single
                            (fs ex_world))) as [H _];
      [vm_compute; reflexivity | vm_compute; reflexivity | vm_compute; reflexivity |].
    unfold argv. rewrite H.
    + vm_compute. reflexivity.
    + apply str_eqb_false_neq. vm_compute. reflexivity.
  - vm_compute. reflexivity.
Defined.
